(** * Certificate renewal scheduler ([acme/autocert/renewal.go])

    A shallow embedding of the per-domain renewal record [domainRenewal]:
    its delay computation [next], the renewal algorithm [do] with
    [updateState], and the timer control [start] / [stop] / [renew].

    Go values are modelled as the code has them: [time.Duration] is a
    64-bit signed count of nanoseconds (a [Z] with its wrap-around written
    out), [time.Time] is an instant, the [Manager.state] map is a finite
    map, and the effects of the methods (map and cache writes, timers,
    lock operations, calls to collaborators) are threaded through an
    explicit state that also records a trace of events. *)

From Stdlib Require Import ZArith Lia.
From stdpp Require Import gmap strings list.

Local Open Scope Z_scope.

(** ** 64-bit signed integers *)

Module Int64.

Definition min : Z := - 2 ^ 63.
Definition max : Z := 2 ^ 63 - 1.

Definition in_range (z : Z) : Prop := min <= z <= max.

(** Two's complement wrap-around of an arithmetic result. *)
Definition wrap (z : Z) : Z := (z + 2 ^ 63) mod 2 ^ 64 - 2 ^ 63.

(** Saturation, as done by [time.Time.Sub]. *)
Definition clamp (z : Z) : Z :=
  if z <? min then min else if max <? z then max else z.

Definition add (a b : Z) : Z := wrap (a + b).
Definition sub (a b : Z) : Z := wrap (a - b).

End Int64.

(** ** The [time] package *)

Module time.

(** A [Duration] is an [int64] number of nanoseconds. *)
Definition Duration : Type := Z.

(** A [Time] is an instant with nanosecond precision.  Its range is far
    larger than that of a [Duration]; we take it as the number of
    nanoseconds since an arbitrary epoch, unbounded. *)
Definition Time : Type := Z.

Definition Nanosecond : Duration := 1.
Definition Second : Duration := 1000000000 * Nanosecond.
Definition Minute : Duration := 60 * Second.
Definition Hour : Duration := 60 * Minute.

(** [t.Sub(u)]: the duration [t - u]; when it does not fit a [Duration]
    the maximum (or minimum) duration is returned. *)
Definition Sub (t u : Time) : Duration := Int64.clamp (t - u).

End time.

Abbreviation Duration := time.Duration.
Abbreviation Time := time.Time.

(** [const renewJitter = time.Hour] *)
Definition renewJitter : Duration := time.Hour.

(** ** Certificates, keys and the per-domain state *)

Definition error : Type := string.

Inductive result (A : Type) : Type :=
| Ok (a : A)
| Err (e : error).
Arguments Ok {A} a.
Arguments Err {A} e.

(** [certKey]: the key of [Manager.state] and of the cache. *)
Record certKey : Type := CertKey {
  domain : string;
  isRSA : bool;
  isToken : bool
}.

#[global] Instance certKey_eq_dec : EqDecision certKey.
Proof. solve_decision. Defined.

#[global] Instance certKey_countable : Countable certKey.
Proof.
  refine (inj_countable'
    (fun k => (domain k, isRSA k, isToken k))
    (fun t => CertKey t.1.1 t.1.2 t.2) _).
  by intros [].
Defined.

(** A [crypto.Signer] is identified by a number.  A [crypto.PrivateKey] is
    an arbitrary value that may or may not implement [crypto.Signer]. *)
Definition Signer : Type := Z.

Inductive PrivateKey : Type :=
| SignerKey (s : Signer)
| OpaqueKey (id : Z).

(** The type assertion [k.(crypto.Signer)]. *)
Definition asSigner (k : PrivateKey) : option Signer :=
  match k with
  | SignerKey s => Some s
  | OpaqueKey _ => None
  end.

Definition bytes : Type := list Z.

(** [x509.Certificate], reduced to what the renewal code reads. *)
Record x509Certificate : Type := X509 {
  NotAfter : Time;
  Raw : bytes
}.

(** [tls.Certificate] *)
Record tlsCertificate : Type := TLS {
  Certificate : list bytes;
  PrivateKey_of : PrivateKey;
  Leaf : x509Certificate
}.

(** [certState]: one generation of a certificate. *)
Record certState : Type := CertState {
  key : Signer;
  cert : list bytes;
  leaf : x509Certificate
}.

(** ** Events *)

Inductive Mutex : Type := timerMu | stateMu.

#[global] Instance Mutex_eq_dec : EqDecision Mutex.
Proof. solve_decision. Defined.

Definition TimerId : Type := nat.

Inductive Event : Type :=
| EvLock (mu : Mutex)
| EvUnlock (mu : Mutex)
| EvCacheGet (ck : certKey)
| EvCachePut (ck : certKey) (c : tlsCertificate)
| EvAuthorizedCert (k : Signer) (ck : certKey)
| EvSetKey (k : Signer)
| EvSetState (ck : certKey) (s : certState)
| EvAfterFunc (d : Duration) (t : TimerId)
| EvTimerStop (t : TimerId)
| EvDidRenewLoop (next : Duration) (err : option error).

(** A call that leaves the process: the cache or the issuer. *)
Definition is_external (e : Event) : bool :=
  match e with
  | EvCacheGet _ | EvCachePut _ _ | EvAuthorizedCert _ _ => true
  | _ => false
  end.

Definition is_cache_write (e : Event) : bool :=
  match e with EvCachePut _ _ => true | _ => false end.

Definition is_issuer_call (e : Event) : bool :=
  match e with EvAuthorizedCert _ _ => true | _ => false end.

Definition is_map_write (e : Event) : bool :=
  match e with EvSetState _ _ | EvSetKey _ => true | _ => false end.

(** [calls_under mu held tr]: the external calls of [tr] made while [mu]
    is held, [held] telling whether it is held when [tr] begins. *)
Fixpoint calls_under (mu : Mutex) (held : bool) (tr : list Event) : list Event :=
  match tr with
  | [] => []
  | e :: tr' =>
      match e with
      | EvLock mu' =>
          calls_under mu (if decide (mu' = mu) then true else held) tr'
      | EvUnlock mu' =>
          calls_under mu (if decide (mu' = mu) then false else held) tr'
      | _ =>
          if held && is_external e
          then e :: calls_under mu held tr'
          else calls_under mu held tr'
      end
  end.

(** ** Collaborators

    The methods of [Manager] that the renewal code calls, the clock and
    the random source are defined outside [renewal.go]; they are taken as
    parameters.  Network and clock answers are indexed by the number of
    calls made so far, so that consecutive calls may answer differently. *)

Class Collaborators : Type := {
  (** contents of the storage behind [Manager.Cache] *)
  CacheT : Type;
  (** [m.cacheGet(ctx, ck)] *)
  cacheGet : CacheT -> certKey -> result tlsCertificate;
  (** [m.cachePut(ctx, ck, tlscert)]: the storage afterwards and the error, if any *)
  cachePut : CacheT -> certKey -> tlsCertificate -> CacheT * option error;
  (** [m.authorizedCert(ctx, key, ck)] *)
  authorizedCert : nat -> Signer -> certKey -> result (list bytes * x509Certificate);
  (** [state.tlscert()] *)
  tlscert : certState -> result tlsCertificate;
  (** [m.now()] *)
  now : nat -> Time;
  (** [m.renewBefore()] *)
  renewBefore : Duration;
  (** the raw output of [pseudoRand] *)
  rand63 : nat -> Z
}.

(** ** State

    The part of the program state the methods of one [domainRenewal]
    read and write. *)

Record St `{Collaborators} : Type := MkSt {
  (** [dr.m.state] and the cache behind [dr.m] *)
  m_state : gmap certKey certState;
  m_cache : CacheT;
  (** [dr.ck], [dr.key], [dr.timer] ([None] is [nil]) *)
  dr_ck : certKey;
  dr_key : Signer;
  dr_timer : option TimerId;
  (** how often the clock, the random source and the issuer were asked *)
  clock_reads : nat;
  rand_draws : nat;
  issuer_calls : nat;
  (** timers of the runtime: how many were created, which are pending
      (with their delay), and how many callbacks were started by a fired
      timer and have not yet entered [renew] *)
  timers_made : nat;
  armed : gmap TimerId Duration;
  fired : nat;
  (** what happened so far, oldest first *)
  trace : list Event
}.

Section Setters.
Context `{Collaborators}.

Definition set_m_state (v : gmap certKey certState) (s : St) : St :=
  MkSt _ v (m_cache s) (dr_ck s) (dr_key s) (dr_timer s) (clock_reads s)
    (rand_draws s) (issuer_calls s) (timers_made s) (armed s) (fired s) (trace s).
Definition set_m_cache (v : CacheT) (s : St) : St :=
  MkSt _ (m_state s) v (dr_ck s) (dr_key s) (dr_timer s) (clock_reads s)
    (rand_draws s) (issuer_calls s) (timers_made s) (armed s) (fired s) (trace s).
Definition set_dr_key (v : Signer) (s : St) : St :=
  MkSt _ (m_state s) (m_cache s) (dr_ck s) v (dr_timer s) (clock_reads s)
    (rand_draws s) (issuer_calls s) (timers_made s) (armed s) (fired s) (trace s).
Definition set_dr_timer (v : option TimerId) (s : St) : St :=
  MkSt _ (m_state s) (m_cache s) (dr_ck s) (dr_key s) v (clock_reads s)
    (rand_draws s) (issuer_calls s) (timers_made s) (armed s) (fired s) (trace s).
Definition set_clock_reads (v : nat) (s : St) : St :=
  MkSt _ (m_state s) (m_cache s) (dr_ck s) (dr_key s) (dr_timer s) v
    (rand_draws s) (issuer_calls s) (timers_made s) (armed s) (fired s) (trace s).
Definition set_rand_draws (v : nat) (s : St) : St :=
  MkSt _ (m_state s) (m_cache s) (dr_ck s) (dr_key s) (dr_timer s) (clock_reads s)
    v (issuer_calls s) (timers_made s) (armed s) (fired s) (trace s).
Definition set_issuer_calls (v : nat) (s : St) : St :=
  MkSt _ (m_state s) (m_cache s) (dr_ck s) (dr_key s) (dr_timer s) (clock_reads s)
    (rand_draws s) v (timers_made s) (armed s) (fired s) (trace s).
Definition set_timers_made (v : nat) (s : St) : St :=
  MkSt _ (m_state s) (m_cache s) (dr_ck s) (dr_key s) (dr_timer s) (clock_reads s)
    (rand_draws s) (issuer_calls s) v (armed s) (fired s) (trace s).
Definition set_armed (v : gmap TimerId Duration) (s : St) : St :=
  MkSt _ (m_state s) (m_cache s) (dr_ck s) (dr_key s) (dr_timer s) (clock_reads s)
    (rand_draws s) (issuer_calls s) (timers_made s) v (fired s) (trace s).
Definition set_fired (v : nat) (s : St) : St :=
  MkSt _ (m_state s) (m_cache s) (dr_ck s) (dr_key s) (dr_timer s) (clock_reads s)
    (rand_draws s) (issuer_calls s) (timers_made s) (armed s) v (trace s).
Definition set_trace (v : list Event) (s : St) : St :=
  MkSt _ (m_state s) (m_cache s) (dr_ck s) (dr_key s) (dr_timer s) (clock_reads s)
    (rand_draws s) (issuer_calls s) (timers_made s) (armed s) (fired s) v.
End Setters.

(** ** A state monad for the methods *)

Definition M `{Collaborators} (A : Type) : Type := St -> A * St.

#[global] Instance M_ret `{Collaborators} : MRet M := fun A a s => (a, s).
#[global] Instance M_bind `{Collaborators} : MBind M :=
  fun A B k m s => match m s with (a, s') => k a s' end.

Section Primitives.
Context `{Collaborators}.

Definition gets {A : Type} (f : St -> A) : M A := fun s => (f s, s).
Definition modify (f : St -> St) : M unit := fun s => (tt, f s).

Definition emit (e : Event) : M unit :=
  modify (fun s => set_trace (trace s ++ [e]) s).

(** [mu.Lock()], [mu.Unlock()] *)
Definition Lock (mu : Mutex) : M unit := emit (EvLock mu).
Definition Unlock (mu : Mutex) : M unit := emit (EvUnlock mu).

(** [dr.m.now()] *)
Definition m_now : M Time :=
  n ← gets clock_reads;
  modify (set_clock_reads (S n));;
  mret (now n).

(** [dr.m.renewBefore()] *)
Definition m_renewBefore : M Duration := mret renewBefore.

(** [pseudoRand.int63n(max)]: some number of [[0, max)]; it is only
    ever called with a positive constant. *)
Definition pseudoRand_int63n (max : Z) : M Z :=
  n ← gets rand_draws;
  modify (set_rand_draws (S n));;
  mret (rand63 n mod max).

(** [dr.m.cacheGet(ctx, ck)] *)
Definition m_cacheGet (ck : certKey) : M (result tlsCertificate) :=
  emit (EvCacheGet ck);;
  c ← gets m_cache;
  mret (cacheGet c ck).

(** [dr.m.cachePut(ctx, ck, tlscert)] *)
Definition m_cachePut (ck : certKey) (tc : tlsCertificate) : M (option error) :=
  emit (EvCachePut ck tc);;
  c ← gets m_cache;
  modify (set_m_cache (cachePut c ck tc).1);;
  mret (cachePut c ck tc).2.

(** [dr.m.authorizedCert(ctx, key, ck)] *)
Definition m_authorizedCert (k : Signer) (ck : certKey)
  : M (result (list bytes * x509Certificate)) :=
  emit (EvAuthorizedCert k ck);;
  n ← gets issuer_calls;
  modify (set_issuer_calls (S n));;
  mret (authorizedCert n k ck).

(** [time.AfterFunc(d, dr.renew)]: a new pending timer. *)
Definition AfterFunc (d : Duration) : M TimerId :=
  t ← gets timers_made;
  modify (set_timers_made (S t));;
  a ← gets armed;
  modify (set_armed (<[t := d]> a));;
  emit (EvAfterFunc d t);;
  mret t.

(** [t.Stop()]: the timer is no longer pending; a callback that was
    already started is not waited for. *)
Definition Timer_Stop (t : TimerId) : M unit :=
  a ← gets armed;
  modify (set_armed (delete t a));;
  emit (EvTimerStop t).

(** [var testDidRenewLoop = func(next time.Duration, err error) {}] *)
Definition testDidRenewLoop (next : Duration) (err : option error) : M unit :=
  emit (EvDidRenewLoop next err).

End Primitives.

(** ** The methods of [domainRenewal]

    The [fmt.Println] calls write to standard output only and are left
    out; so is the context that [renew] passes down, whose expiry shows
    as an error answer of a collaborator. *)

Section Methods.
Context `{Collaborators}.

Definition next (expiry : Time) : M Duration :=
  t ← m_now;
  rb ← m_renewBefore;
  let d := Int64.sub (time.Sub expiry t) rb in
  (* add a bit of randomness to renew deadline *)
  n ← pseudoRand_int63n renewJitter;
  let d := Int64.sub d n in
  if d <? 0 then mret 0 else mret d.

Definition updateState (state : certState) : M unit :=
  Lock stateMu;;
  modify (set_dr_key (key state));;
  emit (EvSetKey (key state));;
  ck ← gets dr_ck;
  m ← gets m_state;
  modify (set_m_state (<[ck := state]> m));;
  emit (EvSetState ck state);;
  Unlock stateMu.

(** The first part of [do]: a certificate found in the cache whose
    expiry is far enough away is adopted; [Some next] stands for the
    [return next, nil] inside the nested conditions. *)
Definition do_cached : M (option Duration) :=
  ck ← gets dr_ck;
  r ← m_cacheGet ck;
  match r with
  | Ok tc =>
      next ← next (NotAfter (Leaf tc));
      rb ← m_renewBefore;
      if Int64.add rb renewJitter <? next then
        match asSigner (PrivateKey_of tc) with
        | Some signer =>
            let state := {| key := signer; cert := Certificate tc; leaf := Leaf tc |} in
            updateState state;;
            mret (Some next)
        | None => mret None
        end
      else mret None
  | Err _ => mret None
  end.

(** The rest of [do]: request a certificate, store it, publish it. *)
Definition do_issue : M (result Duration) :=
  ck ← gets dr_ck;
  k ← gets dr_key;
  r ← m_authorizedCert k ck;
  match r with
  | Err err => mret (Err err)
  | Ok (der, lf) =>
      k ← gets dr_key;
      let state := {| key := k; cert := der; leaf := lf |} in
      match tlscert state with
      | Err err => mret (Err err)
      | Ok tc =>
          e ← m_cachePut ck tc;
          match e with
          | Some err => mret (Err err)
          | None =>
              updateState state;;
              d ← next (NotAfter lf);
              mret (Ok d)
          end
      end
  end.

Definition do : M (result Duration) :=
  r ← do_cached;
  match r with
  | Some next => mret (Ok next)
  | None => do_issue
  end.

Definition start (exp : Time) : M unit :=
  Lock timerMu;;
  t ← gets dr_timer;
  match t with
  | Some _ => Unlock timerMu
  | None =>
      d ← next exp;
      t ← AfterFunc d;
      modify (set_dr_timer (Some t));;
      Unlock timerMu
  end.

Definition stop : M unit :=
  Lock timerMu;;
  t ← gets dr_timer;
  match t with
  | None => Unlock timerMu
  | Some t =>
      Timer_Stop t;;
      modify (set_dr_timer None);;
      Unlock timerMu
  end.

Definition renew : M unit :=
  Lock timerMu;;
  t ← gets dr_timer;
  match t with
  | None => Unlock timerMu
  | Some _ =>
      r ← do;
      p ← match r with
          | Ok next => mret (next, None)
          | Err err =>
              let next := Z.quot renewJitter 2 in
              n ← pseudoRand_int63n next;
              mret (Int64.add next n, Some err)
          end;
      t ← AfterFunc p.1;
      modify (set_dr_timer (Some t));;
      testDidRenewLoop p.1 p.2;;
      Unlock timerMu
  end.

End Methods.

(** What a computation adds to the trace. *)
Definition events_of `{Collaborators} {A : Type} (m : M A) (s : St) : list Event :=
  drop (length (trace s)) (trace (m s).2).

(** ** The timer runtime

    A pending timer fires at some point: it stops being pending and its
    callback [dr.renew] is started on its own goroutine, where it first
    waits for [dr.timerMu].  [start], [stop] and [renew] hold that lock
    from their first to their last statement, so each runs as one step. *)

Inductive Op : Type :=
| OpStart (exp : Time)   (* the owner calls [dr.start(exp)] *)
| OpStop                 (* the owner calls [dr.stop()] *)
| OpFire (t : TimerId)   (* the runtime fires the pending timer [t] *)
| OpRenew.               (* a started callback gets the lock and runs *)

Section Runtime.
Context `{Collaborators}.

Definition step (o : Op) (s : St) : option St :=
  match o with
  | OpStart exp => Some (start exp s).2
  | OpStop => Some (stop s).2
  | OpFire t =>
      match armed s !! t with
      | Some _ => Some (set_fired (S (fired s)) (set_armed (delete t (armed s)) s))
      | None => None
      end
  | OpRenew =>
      match fired s with
      | O => None
      | S n => Some (renew (set_fired n s)).2
      end
  end.

Fixpoint run (os : list Op) (s : St) : option St :=
  match os with
  | [] => Some s
  | o :: os' =>
      match step o s with
      | Some s' => run os' s'
      | None => None
      end
  end.

(** One turn of the loop: the timer of the record fires and its
    callback runs. *)
Definition turn (s : St) : option St :=
  match dr_timer s with
  | Some t => run [OpFire t; OpRenew] s
  | None => None
  end.

Fixpoint turns (n : nat) (s : St) : option St :=
  match n with
  | O => Some s
  | S n' =>
      match turn s with
      | Some s' => turns n' s'
      | None => None
      end
  end.

(** The timer of the record is pending. *)
Definition looping (s : St) : Prop :=
  exists t d, dr_timer s = Some t /\ armed s !! t = Some d.

End Runtime.

(** ** A concrete set of collaborators

    A cache kept in a finite map, an issuer that answers for ninety days
    when it answers, and the artifact derivation of [certState.tlscert];
    used to run the methods on concrete inputs. *)

Module Demo.

Definition day : Duration := 24 * time.Hour.

Definition memGet (c : gmap certKey tlsCertificate) (ck : certKey)
  : result tlsCertificate :=
  match c !! ck with
  | Some tc => Ok tc
  | None => Err "cache miss"
  end.

Definition memPut (ok : bool) (c : gmap certKey tlsCertificate) (ck : certKey)
    (tc : tlsCertificate) : gmap certKey tlsCertificate * option error :=
  if ok then (<[ck := tc]> c, None) else (c, Some "cache write failed").

Definition derive (st : certState) : result tlsCertificate :=
  match cert st with
  | [] => Err "missing certificate"
  | _ => Ok {| Certificate := cert st; PrivateKey_of := SignerKey (key st); Leaf := leaf st |}
  end.

(** [clock0]: the first clock reading; the clock advances a second per
    reading.  [issuerOk], [chainOk], [putOk]: whether the issuer
    answers, whether it answers with a chain, whether the cache accepts
    writes.  [draw]: the raw random output. *)
Definition env (clock0 : Time) (lead : Duration) (draw : Z)
    (issuerOk chainOk putOk : bool) : Collaborators := {|
  CacheT := gmap certKey tlsCertificate;
  cacheGet := memGet;
  cachePut := memPut putOk;
  authorizedCert := fun n _ _ =>
    if issuerOk
    then Ok (if chainOk then [[Z.of_nat n]] else [],
             {| NotAfter := clock0 + 90 * day; Raw := [Z.of_nat n] |})
    else Err "issuance failed";
  tlscert := derive;
  now := fun n => clock0 + Z.of_nat n * time.Second;
  renewBefore := lead;
  rand63 := fun n => draw + Z.of_nat n
|}.

Definition ck0 : certKey := CertKey "example.org" false false.

Definition init `{Collaborators} (c : CacheT) (k : Signer) (t : option TimerId) : St :=
  {| m_state := ∅; m_cache := c; dr_ck := ck0; dr_key := k; dr_timer := t;
     clock_reads := 0; rand_draws := 0; issuer_calls := 0;
     timers_made := 0; armed := ∅; fired := 0; trace := [] |}.

(** 1700-01-01T00:00:00Z in nanoseconds since 1970. *)
Definition t1700 : Time := - 8520336000 * time.Second.

(** 9999-12-31T23:59:59Z in nanoseconds since 1970. *)
Definition t9999 : Time := 253402300799 * time.Second.

(** 2026-10-31T00:00:00Z in nanoseconds since 1970. *)
Definition t2026 : Time := 1793404800 * time.Second.

(** A cached certificate for [ck0] expiring at [exp]. *)
Definition cached (pk : PrivateKey) (exp : Time) : gmap certKey tlsCertificate :=
  {[ ck0 := {| Certificate := [[7]]; PrivateKey_of := pk;
               Leaf := {| NotAfter := exp; Raw := [7] |} |} ]}.

(** The owner starts the record, its timer fires, the owner stops and
    starts the record again, and only then the callback of the fired
    timer runs. *)
Definition race_schedule : list Op :=
  let exp := t2026 + 45 * day in
  [OpStart exp; OpFire 0%nat; OpStop; OpStart exp; OpRenew].

Definition envOk : Collaborators := env t2026 (30 * day) 5 true true true.
Definition envNoIssuer : Collaborators := env t2026 (30 * day) 5 false true true.
Definition envNoChain : Collaborators := env t2026 (30 * day) 5 true false true.
Definition envNoPut : Collaborators := env t2026 (30 * day) 5 true true false.

End Demo.

(** ** Vocabulary of the properties *)

(** The steps of the issuance path that can fail. *)
Inductive Step : Type := Issuance | Derivation | CacheWrite.

(** A timer is created, or a report is made to [testDidRenewLoop]. *)
Definition is_timer_made (e : Event) : bool :=
  match e with EvAfterFunc _ _ => true | _ => false end.

Definition is_report (e : Event) : bool :=
  match e with EvDidRenewLoop _ _ => true | _ => false end.

(** What the owner and the runtime do to a record when every callback
    runs as soon as its timer fires. *)
Inductive Call : Type :=
| CallStart (exp : Time)   (* [dr.start(exp)] *)
| CallStop                 (* [dr.stop()] *)
| CallTurn.                (* the timer of the record fires and [dr.renew] runs *)

(** Which of the two locks are held. *)
Record Held : Type := MkHeld { holds_timerMu : bool; holds_stateMu : bool }.

Definition holds (h : Held) (mu : Mutex) : bool :=
  match mu with
  | timerMu => holds_timerMu h
  | stateMu => holds_stateMu h
  end.

Definition set_held (mu : Mutex) (b : bool) (h : Held) : Held :=
  match mu with
  | timerMu => MkHeld b (holds_stateMu h)
  | stateMu => MkHeld (holds_timerMu h) b
  end.

(** [lock_scan h tr] follows the locks through [tr], beginning with [h]
    held, and gives what is held at the end.  It gives [None] when a
    lock is taken that is already held (a [sync.Mutex] would block for
    ever), when a lock is taken while [stateMu] is held, when a lock is
    released that is not held, or when [dr.key] or the map is written
    without [stateMu]. *)
Fixpoint lock_scan (h : Held) (tr : list Event) : option Held :=
  match tr with
  | [] => Some h
  | e :: tr' =>
      match e with
      | EvLock mu =>
          if holds h mu || holds h stateMu then None
          else lock_scan (set_held mu true h) tr'
      | EvUnlock mu =>
          if holds h mu then lock_scan (set_held mu false h) tr' else None
      | EvSetKey _ | EvSetState _ _ =>
          if holds h stateMu then lock_scan h tr' else None
      | _ => lock_scan h tr'
      end
  end.

Section Vocabulary.
Context `{Collaborators}.

(** The timer fields, which only [start], [stop] and [renew] touch. *)
Definition same_timers (s s' : St) : Prop :=
  dr_ck s' = dr_ck s /\ dr_timer s' = dr_timer s /\
  timers_made s' = timers_made s /\ armed s' = armed s /\ fired s' = fired s.

(** The first step of the issuance path that fails when it is taken
    from [s], with its error, if one does. *)
Definition failing_step (s : St) : option (Step * error) :=
  match authorizedCert (issuer_calls s) (dr_key s) (dr_ck s) with
  | Err e => Some (Issuance, e)
  | Ok (der, lf) =>
      match tlscert {| key := dr_key s; cert := der; leaf := lf |} with
      | Err e => Some (Derivation, e)
      | Ok tc =>
          match (cachePut (m_cache s) (dr_ck s) tc).2 with
          | Some e => Some (CacheWrite, e)
          | None => None
          end
      end
  end.

(** The delay and the error that [renew] passes on, from the answer of
    [do] and the state [do] left. *)
Definition renew_outcome (r : result Duration * St) : Duration * option error :=
  match r.1 with
  | Ok next => (next, None)
  | Err err =>
      (Int64.add (Z.quot renewJitter 2)
         (rand63 (rand_draws r.2) mod Z.quot renewJitter 2), Some err)
  end.

(** The only pending timer is the one the record refers to, and no
    callback is waiting for the lock. *)
Definition one_timer (s : St) : Prop :=
  fired s = 0%nat /\
  match dr_timer s with
  | Some t => exists d, armed s = {[ t := d ]}
  | None => armed s = ∅
  end.

(** [call c s]: the state after [c]; a turn needs the timer of the
    record to be pending. *)
Definition call (c : Call) (s : St) : option St :=
  match c with
  | CallStart exp => Some (start exp s).2
  | CallStop => Some (stop s).2
  | CallTurn => turn s
  end.

Fixpoint calls (cs : list Call) (s : St) : option St :=
  match cs with
  | [] => Some s
  | c :: cs' =>
      match call c s with
      | Some s' => calls cs' s'
      | None => None
      end
  end.

End Vocabulary.

(** * Properties *)

(** ** 64-bit arithmetic *)

Lemma wrap_id z : Int64.in_range z -> Int64.wrap z = z.
Proof.
  unfold Int64.in_range, Int64.wrap, Int64.min, Int64.max. intros Hz.
  rewrite Z.mod_small; lia.
Qed.

Lemma wrap_in_range z : Int64.in_range (Int64.wrap z).
Proof.
  unfold Int64.in_range, Int64.wrap, Int64.min, Int64.max.
  pose proof (Z.mod_pos_bound (z + 2 ^ 63) (2 ^ 64) ltac:(lia)). lia.
Qed.

Lemma sub_sub_wrap a b c : Int64.sub (Int64.sub a b) c = Int64.wrap (a - b - c).
Proof.
  unfold Int64.sub, Int64.wrap.
  replace ((a - b + 2 ^ 63) mod 2 ^ 64 - 2 ^ 63 - c + 2 ^ 63)
    with ((a - b + 2 ^ 63) mod 2 ^ 64 - c) by lia.
  rewrite Zminus_mod_idemp_l. do 2 f_equal. lia.
Qed.

Lemma clamp_id z : Int64.in_range z -> Int64.clamp z = z.
Proof.
  unfold Int64.in_range, Int64.clamp. intros Hz.
  destruct (Z.ltb_spec z Int64.min); [lia |].
  destruct (Z.ltb_spec Int64.max z); [lia | done].
Qed.

Lemma clamp_in_range z : Int64.in_range (Int64.clamp z).
Proof.
  unfold Int64.in_range, Int64.clamp.
  destruct (Z.ltb_spec z Int64.min); [unfold Int64.min, Int64.max; lia |].
  destruct (Z.ltb_spec Int64.max z); [unfold Int64.min, Int64.max in *; lia | lia].
Qed.

Lemma renewJitter_value : renewJitter = 3600000000000.
Proof. reflexivity. Qed.

Lemma int63n_bound r m : 0 < m -> 0 <= r mod m < m.
Proof. intros. by apply Z.mod_pos_bound. Qed.

(** ** The delay computation *)

Section NextProps.
Context `{Collaborators}.

(** [next] as a function of the clock reading and the draw it takes. *)
Lemma next_unfold expiry s :
  next expiry s =
    (let d := Int64.wrap (time.Sub expiry (now (clock_reads s)) - renewBefore
                          - rand63 (rand_draws s) mod renewJitter) in
     if d <? 0 then 0 else d,
     set_rand_draws (S (rand_draws s)) (set_clock_reads (S (clock_reads s)) s)).
Proof.
  unfold next, m_now, m_renewBefore, pseudoRand_int63n, gets, modify.
  unfold mbind, M_bind, mret, M_ret. cbn -[Int64.sub Z.modulo renewJitter Z.ltb].
  rewrite sub_sub_wrap. cbn zeta.
  by destruct (_ <? 0).
Qed.

Lemma next_nonneg expiry s : 0 <= (next expiry s).1.
Proof.
  rewrite next_unfold. cbn -[Int64.wrap Z.modulo renewJitter Z.ltb].
  destruct (Z.ltb_spec (Int64.wrap (time.Sub expiry (now (clock_reads s)) - renewBefore
                          - rand63 (rand_draws s) mod renewJitter)) 0); lia.
Qed.

Lemma next_in_range expiry s : Int64.in_range ((next expiry s).1).
Proof.
  rewrite next_unfold. cbn -[Int64.wrap Z.modulo renewJitter Z.ltb].
  destruct (Z.ltb_spec (Int64.wrap (time.Sub expiry (now (clock_reads s)) - renewBefore
                          - rand63 (rand_draws s) mod renewJitter)) 0).
  - unfold Int64.in_range, Int64.min, Int64.max. lia.
  - apply wrap_in_range.
Qed.

(** The delay depends on the state only through the two counters. *)
Lemma next_fst_counters expiry s s' :
  clock_reads s' = clock_reads s -> rand_draws s' = rand_draws s ->
  (next expiry s').1 = (next expiry s).1.
Proof. intros Hc Hr. rewrite !next_unfold. cbn [fst]. by rewrite Hc, Hr. Qed.

End NextProps.

Section DelayClaim.
Context `{Collaborators}.

(** C1 (as amended): for every expiry [E], clock reading [N], lead time
    [L] and draw [U], the draw lies in [[0, renewJitter)] and the result
    of [next] is never negative; when [E - N] and [E - N - L - U] fit a
    64-bit [Duration], the result is exactly [max 0 (E - N - L - U)]. *)
Theorem next_delay (E : Time) (s : St) :
  let N := now (clock_reads s) in
  let L := renewBefore in
  let U := rand63 (rand_draws s) mod renewJitter in
  Int64.in_range (E - N) ->
  Int64.in_range (E - N - L - U) ->
  (next E s).1 = Z.max 0 (E - N - L - U) /\
  0 <= U < renewJitter /\
  0 <= (next E s).1.
Proof.
  intros N L U HEN Hall. subst N L U. split; [| split].
  - rewrite next_unfold. cbn -[Int64.wrap Z.modulo renewJitter Z.ltb].
    unfold time.Sub. rewrite (clamp_id _ HEN), (wrap_id _ Hall).
    match goal with |- context [?x <? 0] => destruct (Z.ltb_spec x 0) end; lia.
  - apply int63n_bound. by rewrite renewJitter_value.
  - apply next_nonneg.
Qed.

End DelayClaim.

(** C1 (as stated) fails where the 64 bits of a [Duration] do not hold
    the quantities of the formula, read in 2026 with a lead time of
    thirty days.  For a certificate that expires at the end of the year
    9999 the difference of the two instants saturates at the greatest
    [Duration], and [next] returns some 292 years where the formula has
    some 7973.  For a certificate that expired in 1700 the difference
    saturates at the least [Duration], subtracting the lead time wraps
    around, and [next] returns some 292 years where the formula has
    [0]. *)
Lemma next_out_of_range :
  let s := @Demo.init Demo.envOk ∅ 11 None in
  let N := @now Demo.envOk (clock_reads s) in
  let L := @renewBefore Demo.envOk in
  let U := @rand63 Demo.envOk (rand_draws s) mod renewJitter in
  (0 <= U < renewJitter) /\
  ((@next Demo.envOk Demo.t9999 s).1 = 9220780036854775802 /\
   Z.max 0 (Demo.t9999 - N - L - U) = 251606303998999999995 /\
   (@next Demo.envOk Demo.t9999 s).1 <> Z.max 0 (Demo.t9999 - N - L - U)) /\
  ((@next Demo.envOk Demo.t1700 s).1 = 9220780036854775803 /\
   Z.max 0 (Demo.t1700 - N - L - U) = 0 /\
   (@next Demo.envOk Demo.t1700 s).1 <> Z.max 0 (Demo.t1700 - N - L - U)).
Proof. vm_compute. repeat split; congruence. Qed.

Lemma next_delay_witness :
  let s := @Demo.init Demo.envOk ∅ 11 None in
  let E := Demo.t2026 + 45 * Demo.day in
  Int64.in_range (E - Demo.t2026) /\
  Int64.in_range (E - Demo.t2026 - 30 * Demo.day - 5) /\
  (@next Demo.envOk E s).1 = 15 * Demo.day - 5.
Proof.
  intros s E.
  assert (H1 : Int64.in_range (E - Demo.t2026)) by (vm_compute; split; discriminate).
  assert (H2 : Int64.in_range (E - Demo.t2026 - 30 * Demo.day - 5))
    by (vm_compute; split; discriminate).
  split; [exact H1 | split; [exact H2 |]].
  destruct (@next_delay Demo.envOk E s H1 H2) as [Hv _].
  rewrite Hv. reflexivity.
Defined.

(** ** The renewal algorithm *)

Ltac unfold_M :=
  unfold do_cached, do_issue, updateState, m_cacheGet, m_cachePut,
    m_authorizedCert, m_renewBefore, AfterFunc, Timer_Stop, testDidRenewLoop,
    Lock, Unlock, emit, gets, modify;
  unfold mbind, M_bind, mret, M_ret.

Ltac norm_trace := rewrite <- ?app_assoc; cbn [app].

Ltac step_M := cbn -[do next Int64.add Int64.wrap renewJitter Z.ltb Z.modulo Z.quot].

Section DoProps.
Context `{Collaborators}.

Lemma do_unfold s :
  do s = match (do_cached s).1 with
         | Some d => (Ok d, (do_cached s).2)
         | None => do_issue (do_cached s).2
         end.
Proof.
  unfold do, mbind, M_bind, mret, M_ret.
  destruct (do_cached s) as [[d|] s']; reflexivity.
Qed.

(** The comparison of [do] in unbounded arithmetic: for a lead time and
    a delay that are [Duration]s, a delay above the exact sum of lead
    time and jitter window is above their [Duration] sum. *)
Lemma exceeds_lead_and_jitter d :
  Int64.in_range renewBefore -> Int64.in_range d ->
  renewBefore + renewJitter < d ->
  Int64.add renewBefore renewJitter < d.
Proof.
  unfold Int64.in_range, Int64.add. intros Hrb Hd Hlt.
  rewrite wrap_id; [exact Hlt |].
  unfold Int64.in_range. rewrite renewJitter_value in *.
  unfold Int64.min, Int64.max in *. lia.
Qed.

Lemma do_cached_adopt s tc signer :
  cacheGet (m_cache s) (dr_ck s) = Ok tc ->
  Int64.add renewBefore renewJitter < (next (NotAfter (Leaf tc)) s).1 ->
  asSigner (PrivateKey_of tc) = Some signer ->
  let st := {| key := signer; cert := Certificate tc; leaf := Leaf tc |} in
  let s' := (do_cached s).2 in
  (do_cached s).1 = Some (next (NotAfter (Leaf tc)) s).1 /\
  m_state s' = <[dr_ck s := st]> (m_state s) /\
  dr_key s' = signer /\
  m_cache s' = m_cache s /\
  issuer_calls s' = issuer_calls s /\
  same_timers s s' /\
  trace s' = trace s ++ [EvCacheGet (dr_ck s); EvLock stateMu; EvSetKey signer;
                         EvSetState (dr_ck s) st; EvUnlock stateMu].
Proof.
  intros Hget Hfar Hsig st s'. subst st s'. revert Hfar.
  unfold_M. step_M. rewrite Hget, !next_unfold. step_M.
  intros Hfar%Z.ltb_lt. rewrite Hfar, Hsig. step_M.
  norm_trace. unfold same_timers. step_M. done.
Qed.

(** A certificate that is cached and far from expiry but whose key is
    no signer, like any other that is not adopted, leaves everything
    but the counters and the trace as it was. *)
Lemma do_cached_skip s :
  (do_cached s).1 = None ->
  let s' := (do_cached s).2 in
  m_state s' = m_state s /\ dr_key s' = dr_key s /\ m_cache s' = m_cache s /\
  issuer_calls s' = issuer_calls s /\ same_timers s s' /\
  trace s' = trace s ++ [EvCacheGet (dr_ck s)].
Proof.
  unfold_M. step_M. unfold same_timers.
  destruct (cacheGet (m_cache s) (dr_ck s)) as [tc|e]; [| done].
  rewrite next_unfold. step_M.
  destruct (_ <? _); [| done].
  destruct (asSigner (PrivateKey_of tc)); [discriminate | done].
Qed.

Lemma do_cached_no_signer s tc :
  cacheGet (m_cache s) (dr_ck s) = Ok tc ->
  asSigner (PrivateKey_of tc) = None ->
  (do_cached s).1 = None.
Proof.
  intros Hget Hsig. unfold_M. step_M. rewrite Hget, next_unfold. step_M.
  rewrite Hsig. by destruct (_ <? _).
Qed.

Lemma do_issue_ok s d :
  (do_issue s).1 = Ok d ->
  let s' := (do_issue s).2 in
  exists der lf tc,
    let st := {| key := dr_key s; cert := der; leaf := lf |} in
    authorizedCert (issuer_calls s) (dr_key s) (dr_ck s) = Ok (der, lf) /\
    tlscert st = Ok tc /\
    cachePut (m_cache s) (dr_ck s) tc = (m_cache s', None) /\
    m_state s' = <[dr_ck s := st]> (m_state s) /\
    dr_key s' = dr_key s /\
    d = (next (NotAfter lf) s).1 /\
    issuer_calls s' = S (issuer_calls s) /\
    same_timers s s' /\
    trace s' = trace s ++ [EvAuthorizedCert (dr_key s) (dr_ck s); EvCachePut (dr_ck s) tc;
                           EvLock stateMu; EvSetKey (dr_key s);
                           EvSetState (dr_ck s) st; EvUnlock stateMu].
Proof.
  unfold_M. step_M. unfold same_timers.
  destruct (authorizedCert _ _ _) as [[der lf]|e]; [| discriminate].
  step_M. destruct (tlscert _) as [tc|e] eqn:Htc; [| discriminate].
  step_M. destruct (cachePut (m_cache s) (dr_ck s) tc) as [c' [e|]] eqn:Hput;
    [discriminate |].
  step_M. rewrite !next_unfold. step_M. intros [= <-].
  exists der, lf, tc. norm_trace. rewrite ?next_unfold. done.
Qed.

Lemma do_issue_err s e :
  (do_issue s).1 = Err e ->
  let s' := (do_issue s).2 in
  let k := dr_key s in
  let ck := dr_ck s in
  m_state s' = m_state s /\ dr_key s' = k /\ same_timers s s' /\
  issuer_calls s' = S (issuer_calls s) /\
  ((authorizedCert (issuer_calls s) k ck = Err e /\
    m_cache s' = m_cache s /\
    trace s' = trace s ++ [EvAuthorizedCert k ck]) \/
   (exists der lf,
      authorizedCert (issuer_calls s) k ck = Ok (der, lf) /\
      tlscert {| key := k; cert := der; leaf := lf |} = Err e /\
      m_cache s' = m_cache s /\
      trace s' = trace s ++ [EvAuthorizedCert k ck]) \/
   (exists der lf tc,
      authorizedCert (issuer_calls s) k ck = Ok (der, lf) /\
      tlscert {| key := k; cert := der; leaf := lf |} = Ok tc /\
      cachePut (m_cache s) ck tc = (m_cache s', Some e) /\
      trace s' = trace s ++ [EvAuthorizedCert k ck; EvCachePut ck tc])).
Proof.
  unfold_M. step_M. unfold same_timers.
  destruct (authorizedCert _ _ _) as [[der lf]|e1]; step_M.
  - destruct (tlscert _) as [tc|e2] eqn:Htc; step_M.
    + destruct (cachePut (m_cache s) (dr_ck s) tc) as [c' [e3|]] eqn:Hput; step_M.
      * intros [= ->]. repeat split; try done.
        right; right. exists der, lf, tc. norm_trace. done.
      * rewrite next_unfold. discriminate.
    + intros [= ->]. repeat split; try done.
      right; left. by exists der, lf.
  - intros [= ->]. repeat split; try done. by left.
Qed.

End DoProps.

Section DoClaims.
Context `{Collaborators}.

Lemma events_of_app {A : Type} (m : M A) s evs :
  trace (m s).2 = trace s ++ evs -> events_of m s = evs.
Proof. unfold events_of. intros ->. apply drop_app_length. Qed.

Lemma do_issue_trace_head s :
  exists rest,
    trace (do_issue s).2 = trace s ++ EvAuthorizedCert (dr_key s) (dr_ck s) :: rest.
Proof.
  destruct (do_issue s).1 as [d|e] eqn:Hr.
  - destruct (do_issue_ok _ _ Hr) as (der & lf & tc & _ & _ & _ & _ & _ & _ & _ & _ & Ht).
    eauto.
  - destruct (do_issue_err _ _ Hr) as (_ & _ & _ & _ & Hc).
    destruct Hc as [(_ & _ & Ht) | [(der & lf & _ & _ & _ & Ht) | (der & lf & tc & _ & _ & _ & Ht)]];
      eauto.
Qed.

(** C2: when the cache holds a certificate whose recomputed delay
    exceeds the lead time plus the jitter window and whose private key
    is a signer, [do] calls no issuer: it builds the state from the
    cached certificate, puts it in the shared map and returns that
    delay without an error. *)
Theorem do_adopts_cached (s : St) (tc : tlsCertificate) (signer : Signer) :
  cacheGet (m_cache s) (dr_ck s) = Ok tc ->
  let d := (next (NotAfter (Leaf tc)) s).1 in
  Int64.add renewBefore renewJitter < d ->
  asSigner (PrivateKey_of tc) = Some signer ->
  let st := {| key := signer; cert := Certificate tc; leaf := Leaf tc |} in
  (do s).1 = Ok d /\
  m_state (do s).2 !! dr_ck s = Some st /\
  issuer_calls (do s).2 = issuer_calls s /\
  forallb (fun e => negb (is_issuer_call e)) (events_of do s) = true /\
  events_of do s = [EvCacheGet (dr_ck s); EvLock stateMu; EvSetKey signer;
                    EvSetState (dr_ck s) st; EvUnlock stateMu].
Proof.
  intros Hget d Hfar Hsig st.
  destruct (do_cached_adopt s tc signer Hget Hfar Hsig)
    as (Hr & Hm & _ & _ & Hi & _ & Ht).
  assert (Hdo : do s = (Ok d, (do_cached s).2)) by (by rewrite do_unfold, Hr).
  rewrite (events_of_app do s _ ltac:(rewrite Hdo; exact Ht)).
  rewrite Hdo. cbn [fst snd]. rewrite Hm, lookup_insert_eq, Hi. done.
Qed.

(** C10: on the adoption path [do] does not write to the cache; it
    changes the map entry of its own domain and the key of the record,
    both inside [updateState], and leaves the cache, the entries of all
    other domains and the timer fields as they were. *)
Theorem do_adopt_frame (s : St) (tc : tlsCertificate) (signer : Signer) :
  cacheGet (m_cache s) (dr_ck s) = Ok tc ->
  Int64.add renewBefore renewJitter < (next (NotAfter (Leaf tc)) s).1 ->
  asSigner (PrivateKey_of tc) = Some signer ->
  let st := {| key := signer; cert := Certificate tc; leaf := Leaf tc |} in
  m_cache (do s).2 = m_cache s /\
  forallb (fun e => negb (is_cache_write e)) (events_of do s) = true /\
  (forall ck', ck' <> dr_ck s -> m_state (do s).2 !! ck' = m_state s !! ck') /\
  dr_key (do s).2 = signer /\
  same_timers s (do s).2 /\
  List.filter is_map_write (events_of do s) = [EvSetKey signer; EvSetState (dr_ck s) st] /\
  calls_under stateMu false (events_of do s) = [].
Proof.
  intros Hget Hfar Hsig st.
  destruct (do_cached_adopt s tc signer Hget Hfar Hsig)
    as (Hr & Hm & Hk & Hc & _ & Hf & Ht).
  assert (Hdo : do s = (Ok (next (NotAfter (Leaf tc)) s).1, (do_cached s).2))
    by (by rewrite do_unfold, Hr).
  rewrite (events_of_app do s _ ltac:(rewrite Hdo; exact Ht)).
  rewrite Hdo. cbn [fst snd].
  split; [exact Hc |]. split; [done |].
  split; [intros ck' Hne; rewrite Hm; by apply lookup_insert_ne |].
  split; [exact Hk |]. split; [exact Hf |]. done.
Qed.

(** C8: when the cached certificate is far from expiry but its private
    key is no signer, [do] neither adopts it nor reports an error: it
    goes on to the issuance path with the key of the record, the map,
    the cache and the key being as before. *)
Theorem do_falls_through_without_signer (s : St) (tc : tlsCertificate) :
  cacheGet (m_cache s) (dr_ck s) = Ok tc ->
  Int64.add renewBefore renewJitter < (next (NotAfter (Leaf tc)) s).1 ->
  asSigner (PrivateKey_of tc) = None ->
  let s1 := (do_cached s).2 in
  (do_cached s).1 = None /\
  do s = do_issue s1 /\
  m_state s1 = m_state s /\ m_cache s1 = m_cache s /\ dr_key s1 = dr_key s /\
  exists rest,
    events_of do s = EvCacheGet (dr_ck s) :: EvAuthorizedCert (dr_key s) (dr_ck s) :: rest.
Proof.
  intros Hget _ Hsig s1.
  pose proof (do_cached_no_signer s tc Hget Hsig) as Hr.
  destruct (do_cached_skip s Hr) as (Hm & Hk & Hc & _ & (Hck & _) & Ht).
  fold s1 in Hm, Hk, Hc, Hck, Ht.
  assert (Hdo : do s = do_issue s1) by (by rewrite do_unfold, Hr).
  repeat split; try done.
  destruct (do_issue_trace_head s1) as [rest Hrest].
  exists rest. apply events_of_app.
  rewrite Hdo, Hrest, Ht, Hk, Hck, <- app_assoc. done.
Qed.

Lemma failing_step_skip s :
  (do_cached s).1 = None -> failing_step (do_cached s).2 = failing_step s.
Proof.
  intros Hr. destruct (do_cached_skip s Hr) as (_ & Hk & Hc & Hi & (Hck & _) & _).
  unfold failing_step. by rewrite Hk, Hc, Hi, Hck.
Qed.

Lemma do_issue_failing_step s step e :
  failing_step s = Some (step, e) ->
  (do_issue s).1 = Err e /\
  (step <> CacheWrite -> m_cache (do_issue s).2 = m_cache s) /\
  exists evs, trace (do_issue s).2 = trace s ++ evs /\
              forallb (fun ev => negb (is_map_write ev)) evs = true.
Proof.
  unfold failing_step. unfold_M. step_M.
  destruct (authorizedCert _ _ _) as [[der lf]|e1]; step_M.
  - destruct (tlscert _) as [tc|e2]; step_M.
    + destruct (cachePut (m_cache s) (dr_ck s) tc) as [c' [e3|]]; step_M; [| done].
      intros [= <- <-]. repeat split; try done. norm_trace. eauto.
    + intros [= <- <-]. repeat split; try done. eauto.
  - intros [= <- <-]. repeat split; try done. eauto.
Qed.

(** Every error of [do] is the error of a failing step. *)
Lemma do_error_is_step_failure s e :
  (do s).1 = Err e ->
  (do_cached s).1 = None /\ exists step, failing_step s = Some (step, e).
Proof.
  rewrite do_unfold. destruct (do_cached s).1 as [d|] eqn:Hr; [discriminate |].
  intros He. split; [done |]. rewrite <- (failing_step_skip s Hr).
  destruct (do_issue_err _ _ He) as (_ & _ & _ & _ & Hc). unfold failing_step.
  destruct Hc as [(-> & _) | [(der & lf & -> & -> & _) | (der & lf & tc & -> & -> & -> & _)]];
    eauto.
Qed.

(** C3: when a step of the issuance path fails (the issuer, the
    derivation of the TLS certificate or the cache write), [do] returns
    that error, the shared map and the key of the record are what they
    were before the call, nothing was written to them on the way, and
    unless it was the cache write that failed the cache is unchanged
    as well. *)
Theorem do_failure_no_partial_commit (s : St) (step : Step) (e : error) :
  (do_cached s).1 = None ->
  failing_step s = Some (step, e) ->
  (do s).1 = Err e /\
  m_state (do s).2 = m_state s /\
  dr_key (do s).2 = dr_key s /\
  (step <> CacheWrite -> m_cache (do s).2 = m_cache s) /\
  forallb (fun ev => negb (is_map_write ev)) (events_of do s) = true.
Proof.
  intros Hr Hstep. rewrite <- (failing_step_skip s Hr) in Hstep.
  destruct (do_cached_skip s Hr) as (Hm & Hk & Hc & _ & _ & Ht).
  destruct (do_issue_failing_step _ _ _ Hstep) as (He & Hcache & evs & Hevs & Hnone).
  destruct (do_issue_err _ _ He) as (Hm' & Hk' & _).
  assert (Hdo : do s = do_issue (do_cached s).2) by (by rewrite do_unfold, Hr).
  erewrite (events_of_app do s); [| rewrite Hdo, Hevs, Ht, <- app_assoc; reflexivity].
  rewrite Hdo.
  split; [done |]. split; [congruence |]. split; [congruence |].
  split; [intros Hne; rewrite (Hcache Hne); done |].
  cbn [app forallb]. exact Hnone.
Qed.

(** C4: on the issuance path a successful [do] has asked the issuer
    with the key of the record, built the new state, derived its TLS
    certificate and written that to the cache without error before it
    put the state in the shared map and set the key of the record; the
    map entry is the new state, the cache is what the successful write
    left, and the delay returned is the one computed from the expiry of
    the new leaf. *)
Theorem do_issue_commit (s : St) (d : Duration) :
  (do_cached s).1 = None ->
  (do s).1 = Ok d ->
  let s1 := (do_cached s).2 in
  exists der lf tc,
    let st := {| key := dr_key s; cert := der; leaf := lf |} in
    authorizedCert (issuer_calls s) (dr_key s) (dr_ck s) = Ok (der, lf) /\
    tlscert st = Ok tc /\
    cachePut (m_cache s) (dr_ck s) tc = (m_cache (do s).2, None) /\
    m_state (do s).2 = <[dr_ck s := st]> (m_state s) /\
    m_state (do s).2 !! dr_ck s = Some st /\
    dr_key (do s).2 = key st /\
    d = (next (NotAfter lf) s1).1 /\
    events_of do s =
      [EvCacheGet (dr_ck s); EvAuthorizedCert (dr_key s) (dr_ck s);
       EvCachePut (dr_ck s) tc;
       EvLock stateMu; EvSetKey (dr_key s); EvSetState (dr_ck s) st; EvUnlock stateMu].
Proof.
  intros Hr Hok s1.
  assert (Hdo : do s = do_issue s1) by (by rewrite do_unfold, Hr).
  rewrite Hdo in Hok.
  destruct (do_cached_skip s Hr) as (Hm & Hk & Hc & Hi & (Hck & _) & Ht).
  fold s1 in Hm, Hk, Hc, Hi, Hck, Ht.
  destruct (do_issue_ok _ _ Hok)
    as (der & lf & tc & Ha & Htc & Hput & Hm' & Hk' & Hd & _ & _ & Ht').
  rewrite Hk, Hck, Hc, Hi, Hm in *.
  exists der, lf, tc. cbn zeta.
  rewrite (events_of_app do s _ ltac:(rewrite Hdo, Ht', Ht, <- app_assoc; reflexivity)).
  rewrite Hdo. repeat split; try done.
  rewrite Hm'. apply lookup_insert_eq.
Qed.

End DoClaims.

(** ** The timer callback *)

Section RenewProps.
Context `{Collaborators}.

Lemma renew_idle s :
  dr_timer s = None ->
  (renew s).2 = set_trace (trace s ++ [EvLock timerMu; EvUnlock timerMu]) s.
Proof.
  intros Ht. unfold renew. unfold_M. step_M. rewrite Ht. step_M.
  norm_trace. reflexivity.
Qed.

Lemma renew_armed s t :
  dr_timer s = Some t ->
  let r := do (Lock timerMu s).2 in
  let p := renew_outcome r in
  let id := timers_made r.2 in
  let s' := (renew s).2 in
  dr_timer s' = Some id /\
  armed s' = <[id := p.1]> (armed r.2) /\
  timers_made s' = S id /\
  fired s' = fired r.2 /\
  m_state s' = m_state r.2 /\ m_cache s' = m_cache r.2 /\ dr_key s' = dr_key r.2 /\
  trace s' = trace r.2 ++ [EvAfterFunc p.1 id; EvDidRenewLoop p.1 p.2; EvUnlock timerMu].
Proof.
  intros Ht. unfold renew, renew_outcome, pseudoRand_int63n. unfold_M. step_M.
  rewrite Ht. step_M.
  destruct (do _) as [[d|e] s1]; step_M; norm_trace; done.
Qed.

Lemma backoff_bounds r :
  let U := r mod Z.quot renewJitter 2 in
  0 <= U < Z.quot renewJitter 2 /\
  Int64.add (Z.quot renewJitter 2) U = Z.quot renewJitter 2 + U /\
  Z.quot renewJitter 2 <= Z.quot renewJitter 2 + U < renewJitter.
Proof.
  intros U. subst U. change (Z.quot renewJitter 2) with 1800000000000.
  rewrite renewJitter_value.
  pose proof (Z.mod_pos_bound r 1800000000000 ltac:(lia)) as Hb.
  split; [exact Hb |]. split; [| lia].
  unfold Int64.add. apply wrap_id. unfold Int64.in_range, Int64.min, Int64.max. lia.
Qed.

(** C5: when the renewal attempt fails, [renew] takes half the jitter
    window plus a draw from [[0, renewJitter/2)] as the next delay, arms
    the new timer with it and reports it with the error; the delay lies
    in [[renewJitter/2, renewJitter)]. *)
Theorem renew_backoff (s : St) (t : TimerId) (e : error) :
  dr_timer s = Some t ->
  let r := do (Lock timerMu s).2 in
  r.1 = Err e ->
  let U := rand63 (rand_draws r.2) mod Z.quot renewJitter 2 in
  let d := Z.quot renewJitter 2 + U in
  let id := timers_made r.2 in
  0 <= U < Z.quot renewJitter 2 /\
  Z.quot renewJitter 2 <= d < renewJitter /\
  dr_timer (renew s).2 = Some id /\
  armed (renew s).2 !! id = Some d /\
  trace (renew s).2 =
    trace r.2 ++ [EvAfterFunc d id; EvDidRenewLoop d (Some e); EvUnlock timerMu].
Proof.
  intros Ht r He U d id.
  destruct (renew_armed s t Ht) as (Htm & Ha & _ & _ & _ & _ & _ & Htr).
  fold r in Htm, Ha, Htr. unfold renew_outcome in Ha, Htr. rewrite He in Ha, Htr.
  cbn [fst snd] in Ha, Htr.
  destruct (backoff_bounds (rand63 (rand_draws r.2))) as (HU & Hadd & Hd).
  rewrite Hadd in Ha, Htr. fold U d id in Ha, Htr, HU, Hd.
  split; [exact HU |]. split; [exact Hd |]. split; [exact Htm |].
  split; [| exact Htr]. rewrite Ha. apply lookup_insert_eq.
Qed.

Lemma turn_keeps_looping s :
  looping s -> exists s', turn s = Some s' /\ looping s'.
Proof.
  intros (t & d & Ht & Ha). unfold turn. rewrite Ht. cbn [run step]. rewrite Ha.
  cbn [fired set_fired set_armed].
  set (sf := set_fired _ _).
  assert (Hsf : dr_timer sf = Some t) by exact Ht.
  destruct (renew_armed sf t Hsf) as (Htm & Harm & _).
  eexists. split; [reflexivity |].
  eexists _, _. split; [exact Htm |]. rewrite Harm. apply lookup_insert_eq.
Qed.

Lemma turns_keep_looping n s :
  looping s -> exists s', turns n s = Some s' /\ looping s'.
Proof.
  revert s. induction n as [|n IH]; intros s Hs.
  - exists s. done.
  - destruct (turn_keeps_looping s Hs) as (s1 & Hturn & Hs1).
    destruct (IH s1 Hs1) as (s' & Hturns & Hs').
    exists s'. cbn [turns]. by rewrite Hturn.
Qed.

(** C7: [renew] first looks at the timer of the record.  If it is
    [nil], [renew] takes and releases the lock and nothing else: no
    call, no new timer, no report.  Otherwise it runs [do] and, whether
    that succeeds or fails, arms a new timer, stores it in the record
    and then reports the delay and the error (or none) to
    [testDidRenewLoop]; so the record stays armed through any number
    of turns of the loop, whatever the collaborators answer. *)
Theorem renew_loop (s : St) :
  (dr_timer s = None ->
     (renew s).2 = set_trace (trace s ++ [EvLock timerMu; EvUnlock timerMu]) s /\
     events_of renew s = [EvLock timerMu; EvUnlock timerMu]) /\
  (forall t, dr_timer s = Some t ->
     let r := do (Lock timerMu s).2 in
     exists d err,
       (d, err) = renew_outcome r /\
       (forall n, r.1 = Ok n -> d = n /\ err = None) /\
       (forall e, r.1 = Err e -> err = Some e) /\
       dr_timer (renew s).2 = Some (timers_made r.2) /\
       armed (renew s).2 !! timers_made r.2 = Some d /\
       trace (renew s).2 =
         trace r.2 ++ [EvAfterFunc d (timers_made r.2); EvDidRenewLoop d err;
                       EvUnlock timerMu] /\
       looping (renew s).2) /\
  (forall n, looping s -> exists s', turns n s = Some s' /\ looping s').
Proof.
  split; [| split].
  - intros Ht. split; [by apply renew_idle |].
    apply events_of_app. by rewrite renew_idle.
  - intros t Ht r.
    destruct (renew_armed s t Ht) as (Htm & Ha & _ & _ & _ & _ & _ & Htr).
    fold r in Htm, Ha, Htr.
    exists (renew_outcome r).1, (renew_outcome r).2.
    assert (Hl : armed (renew s).2 !! timers_made r.2 = Some (renew_outcome r).1)
      by (rewrite Ha; apply lookup_insert_eq).
    split; [by destruct (renew_outcome r) |].
    split; [intros n Hn; unfold renew_outcome; by rewrite Hn |].
    split; [intros e He; unfold renew_outcome; by rewrite He |].
    split; [exact Htm |]. split; [exact Hl |]. split; [exact Htr |].
    eexists _, _. split; [exact Htm | exact Hl].
  - intros n. apply turns_keep_looping.
Qed.

End RenewProps.

(** ** Locks *)

Section LockProps.
Context `{Collaborators}.

Lemma calls_under_quiet mu h evs :
  forallb (fun e => negb (is_external e)) evs = true -> calls_under mu h evs = [].
Proof.
  revert h. induction evs as [|e evs IH]; intros h; [done |].
  cbn [forallb]. intros [He Hevs]%andb_prop.
  destruct e; cbn in He |- *; try discriminate; rewrite ?andb_false_r; by apply IH.
Qed.

Lemma calls_under_app_quiet mu h evs evs' :
  forallb (fun e => negb (is_external e)) evs' = true ->
  calls_under mu h (evs ++ evs') = calls_under mu h evs.
Proof.
  intros Hq. revert h. induction evs as [|e evs IH]; intros h.
  - by apply calls_under_quiet.
  - destruct e; cbn [app calls_under]; rewrite ?IH; reflexivity.
Qed.

Lemma filter_external_app_quiet evs evs' :
  forallb (fun e => negb (is_external e)) evs' = true ->
  List.filter is_external (evs ++ evs') = List.filter is_external evs.
Proof.
  intros Hq. rewrite List.filter_app.
  replace (List.filter is_external evs') with (@nil Event); [by rewrite app_nil_r |].
  induction evs' as [|e evs' IH]; [done |].
  cbn [forallb] in Hq. apply andb_prop in Hq as [He Hq].
  cbn [List.filter]. destruct (is_external e); [discriminate | by apply IH].
Qed.

(** What [do] adds to the trace: the cache read, then events among
    which no external call is made under [stateMu], and none of which
    takes or releases [timerMu]. *)
Lemma do_events s :
  exists evs,
    trace (do s).2 = trace s ++ EvCacheGet (dr_ck s) :: evs /\
    calls_under stateMu false evs = [] /\
    calls_under timerMu true evs = List.filter is_external evs.
Proof.
  unfold do. unfold_M. step_M.
  destruct (cacheGet _ _) as [tc|e0]; step_M;
    [rewrite next_unfold; step_M;
     destruct (Int64.add _ _ <? _); step_M;
     [destruct (asSigner _); step_M |] |];
    try (norm_trace; eexists; split; [reflexivity | split; reflexivity]);
    (destruct (authorizedCert _ _ _) as [[der lf]|e1]; step_M;
     [destruct (tlscert _) as [tc'|e2]; step_M;
      [destruct (cachePut _ _ _).2 as [e3|]; step_M |] |]);
    rewrite ?next_unfold; step_M; norm_trace;
    eexists; (split; [reflexivity | split; reflexivity]).
Qed.

Lemma start_idle s exp :
  dr_timer s = None ->
  let d := (next exp s).1 in
  let id := timers_made s in
  dr_timer (start exp s).2 = Some id /\
  armed (start exp s).2 = <[id := d]> (armed s) /\
  timers_made (start exp s).2 = S id /\
  fired (start exp s).2 = fired s /\
  trace (start exp s).2 = trace s ++ [EvLock timerMu; EvAfterFunc d id; EvUnlock timerMu].
Proof.
  intros Ht. unfold start. unfold_M. step_M. rewrite Ht, !next_unfold. step_M.
  norm_trace. done.
Qed.

Lemma start_armed s exp t :
  dr_timer s = Some t ->
  (start exp s).2 = set_trace (trace s ++ [EvLock timerMu; EvUnlock timerMu]) s.
Proof.
  intros Ht. unfold start. unfold_M. step_M. rewrite Ht. step_M.
  norm_trace. reflexivity.
Qed.

Lemma stop_idle s :
  dr_timer s = None ->
  (stop s).2 = set_trace (trace s ++ [EvLock timerMu; EvUnlock timerMu]) s.
Proof.
  intros Ht. unfold stop. unfold_M. step_M. rewrite Ht. step_M.
  norm_trace. reflexivity.
Qed.

Lemma stop_armed s t :
  dr_timer s = Some t ->
  dr_timer (stop s).2 = None /\
  armed (stop s).2 = delete t (armed s) /\
  timers_made (stop s).2 = timers_made s /\
  fired (stop s).2 = fired s /\
  trace (stop s).2 = trace s ++ [EvLock timerMu; EvTimerStop t; EvUnlock timerMu].
Proof.
  intros Ht. unfold stop. unfold_M. step_M. rewrite Ht. step_M.
  norm_trace. done.
Qed.

Lemma renew_events s t :
  dr_timer s = Some t ->
  exists evs d id err,
    events_of renew s =
      EvLock timerMu :: EvCacheGet (dr_ck s) :: evs ++
      [EvAfterFunc d id; EvDidRenewLoop d err; EvUnlock timerMu] /\
    calls_under stateMu false evs = [] /\
    calls_under timerMu true evs = List.filter is_external evs.
Proof.
  intros Ht. destruct (renew_armed s t Ht) as (_ & _ & _ & _ & _ & _ & _ & Htr).
  destruct (do_events (Lock timerMu s).2) as (evs & Hdo & Hs & Ht').
  rewrite Hdo in Htr. exists evs. do 3 eexists. split; [| done].
  apply events_of_app. rewrite Htr. cbn [Lock emit modify snd trace set_trace dr_ck].
  rewrite <- !app_assoc. reflexivity.
Qed.

End LockProps.

Section LockClaim.
Context `{Collaborators}.

(** C9 (as amended): the lock of the shared map is held across no cache
    or issuer call, in [renew], [do], [start] and [stop] alike; [start]
    and [stop] make no such call at all.  The lock of the timer is
    held by [renew] from its first statement to its return, so every
    cache and issuer call that [renew] makes through [do] is made with
    it held, beginning with the cache read. *)
Theorem lock_discipline (s : St) (exp : Time) :
  calls_under stateMu false (events_of renew s) = [] /\
  calls_under stateMu false (events_of do s) = [] /\
  List.filter is_external (events_of (start exp) s) = [] /\
  List.filter is_external (events_of stop s) = [] /\
  calls_under timerMu false (events_of renew s) =
    List.filter is_external (events_of renew s) /\
  (forall t, dr_timer s = Some t ->
     EvCacheGet (dr_ck s) ∈ calls_under timerMu false (events_of renew s)).
Proof.
  assert (Hq : forall d id err,
    forallb (fun e => negb (is_external e))
      [EvAfterFunc d id; EvDidRenewLoop d err; EvUnlock timerMu] = true) by done.
  assert (Hrenew :
    calls_under stateMu false (events_of renew s) = [] /\
    calls_under timerMu false (events_of renew s) =
      List.filter is_external (events_of renew s) /\
    (forall t, dr_timer s = Some t ->
       EvCacheGet (dr_ck s) ∈ calls_under timerMu false (events_of renew s))).
  { destruct (dr_timer s) as [t|] eqn:Ht.
    - destruct (renew_events s t Ht) as (evs & d & id & err & -> & Hs & Hm).
      cbn [calls_under List.filter is_external andb]. rewrite !decide_False by done.
      rewrite decide_True by done. cbn [andb].
      rewrite !calls_under_app_quiet, filter_external_app_quiet by apply Hq.
      rewrite Hs, Hm. split; [done |]. split; [done |].
      intros ? _. apply list_elem_of_here.
    - rewrite (events_of_app renew s [EvLock timerMu; EvUnlock timerMu])
        by (by rewrite renew_idle).
      repeat split; done. }
  destruct Hrenew as (Hr1 & Hr2 & Hr3).
  split; [exact Hr1 |]. split; [| split; [| split; [| split; [exact Hr2 | exact Hr3]]]].
  - destruct (do_events s) as (evs & Hdo & Hs & _).
    rewrite (events_of_app do s _ Hdo). cbn [calls_under andb]. exact Hs.
  - destruct (dr_timer s) as [t|] eqn:Ht.
    + rewrite (events_of_app (start exp) s [EvLock timerMu; EvUnlock timerMu])
        by (by rewrite (start_armed s exp t Ht)).
      done.
    + destruct (start_idle s exp Ht) as (_ & _ & _ & _ & Htr).
      by rewrite (events_of_app (start exp) s _ Htr).
  - destruct (dr_timer s) as [t|] eqn:Ht.
    + destruct (stop_armed s t Ht) as (_ & _ & _ & _ & Htr).
      by rewrite (events_of_app stop s _ Htr).
    + rewrite (events_of_app stop s [EvLock timerMu; EvUnlock timerMu])
        by (by rewrite (stop_idle s Ht)).
      done.
Qed.

End LockClaim.

(** C9 (as stated) fails: a [renew] whose timer is set and whose cache is
    empty reads the cache, asks the issuer and writes the cache, all
    three with the lock of the timer held. *)
Lemma renew_calls_out_under_timerMu :
  let s := @Demo.init Demo.envOk ∅ 11 (Some 0%nat) in
  let tc := {| Certificate := [[0]]; PrivateKey_of := SignerKey 11;
               Leaf := {| NotAfter := Demo.t2026 + 90 * Demo.day; Raw := [0] |} |} in
  calls_under timerMu false (@events_of Demo.envOk _ renew s) =
    [EvCacheGet Demo.ck0; EvAuthorizedCert 11 Demo.ck0; EvCachePut Demo.ck0 tc] /\
  calls_under timerMu false (@events_of Demo.envOk _ renew s) <> [].
Proof. vm_compute. split; [reflexivity | discriminate]. Qed.

(** ** Timers *)

Section TimerProps.
Context `{Collaborators}.

Lemma do_same_timers s : same_timers s (do s).2.
Proof.
  rewrite do_unfold. destruct (do_cached s).1 as [d|] eqn:Hr.
  - revert Hr. unfold_M. step_M. unfold same_timers.
    destruct (cacheGet _ _) as [tc|e0]; step_M; [| discriminate].
    rewrite next_unfold. step_M.
    destruct (Int64.add _ _ <? _); step_M; [| discriminate].
    destruct (asSigner _); step_M; [done | discriminate].
  - destruct (do_cached_skip s Hr) as (_ & _ & _ & _ & Hs & _).
    destruct (do_issue (do_cached s).2).1 as [d|e] eqn:Hi.
    + destruct (do_issue_ok _ _ Hi) as (? & ? & ? & _ & _ & _ & _ & _ & _ & _ & Hs' & _).
      unfold same_timers in *. intuition congruence.
    + destruct (do_issue_err _ _ Hi) as (_ & _ & Hs' & _).
      unfold same_timers in *. intuition congruence.
Qed.

(** A call of [start] on a record whose timer is set changes nothing. *)
Lemma start_idempotent s exp t :
  dr_timer s = Some t ->
  dr_timer (start exp s).2 = Some t /\
  armed (start exp s).2 = armed s /\
  timers_made (start exp s).2 = timers_made s /\
  fired (start exp s).2 = fired s /\
  m_state (start exp s).2 = m_state s /\
  events_of (start exp) s = [EvLock timerMu; EvUnlock timerMu].
Proof.
  intros Ht. rewrite (events_of_app (start exp) s [EvLock timerMu; EvUnlock timerMu])
    by (by rewrite (start_armed s exp t Ht)).
  rewrite (start_armed s exp t Ht). done.
Qed.

Lemma starts_when_armed exps s t :
  dr_timer s = Some t ->
  exists s', run (map OpStart exps) s = Some s' /\
             dr_timer s' = Some t /\ armed s' = armed s /\
             timers_made s' = timers_made s /\ fired s' = fired s.
Proof.
  revert s. induction exps as [|exp exps IH]; intros s Ht.
  - exists s. done.
  - destruct (start_idempotent s exp t Ht) as (Ht' & Ha & Hm & Hf & _).
    destruct (IH _ Ht') as (s' & Hrun & ? & ? & ? & ?).
    exists s'. cbn [map run step]. split; [exact Hrun |]. intuition congruence.
Qed.

(** Any number of calls of [start] on an idle record, with no [stop]
    between them, creates exactly one timer. *)
Lemma starts_arm_once exp exps s :
  dr_timer s = None ->
  exists s', run (map OpStart (exp :: exps)) s = Some s' /\
             dr_timer s' = Some (timers_made s) /\
             armed s' = <[timers_made s := (next exp s).1]> (armed s) /\
             timers_made s' = S (timers_made s).
Proof.
  intros Ht. destruct (start_idle s exp Ht) as (Ht' & Ha & Hm & Hf & _).
  destruct (starts_when_armed exps _ _ Ht') as (s' & Hrun & ? & ? & ? & ?).
  exists s'. cbn [map run step]. split; [exact Hrun |]. intuition congruence.
Qed.

Lemma one_timer_size s : one_timer s -> (size (armed s) <= 1)%nat.
Proof.
  intros [_ Hs]. destruct (dr_timer s) as [t|].
  - destruct Hs as [d ->]. by rewrite map_size_singleton.
  - rewrite Hs, map_size_empty. lia.
Qed.

Lemma one_timer_start s exp : one_timer s -> one_timer (start exp s).2.
Proof.
  intros [Hf Hs]. destruct (dr_timer s) as [t|] eqn:Ht.
  - destruct (start_idempotent s exp t Ht) as (Ht' & Ha & _ & Hf' & _).
    split; [congruence |]. by rewrite Ht', Ha.
  - destruct (start_idle s exp Ht) as (Ht' & Ha & _ & Hf' & _).
    split; [congruence |]. rewrite Ht', Ha, Hs. eexists. apply insert_empty.
Qed.

Lemma one_timer_stop s : one_timer s -> one_timer (stop s).2.
Proof.
  intros [Hf Hs]. destruct (dr_timer s) as [t|] eqn:Ht.
  - destruct (stop_armed s t Ht) as (Ht' & Ha & _ & Hf' & _).
    split; [congruence |]. rewrite Ht', Ha. destruct Hs as [d ->].
    apply delete_singleton_eq.
  - rewrite (stop_idle s Ht). split; [exact Hf |]. cbn. by rewrite Ht.
Qed.

Lemma one_timer_turn s s' : one_timer s -> turn s = Some s' -> one_timer s'.
Proof.
  intros [Hf Hs]. unfold turn. destruct (dr_timer s) as [t|] eqn:Ht; [| discriminate].
  destruct Hs as [d Ha]. cbn [run step]. rewrite Ha, lookup_singleton_eq.
  cbn [fired set_fired set_armed]. rewrite Hf.
  set (sf := set_fired 0 _). intros [= <-].
  assert (Hsf : dr_timer sf = Some t) by exact Ht.
  destruct (renew_armed sf t Hsf) as (Htm & Harm & _ & Hfd & _).
  destruct (do_same_timers (Lock timerMu sf).2) as (_ & _ & _ & Hda & Hdf).
  split.
  - rewrite Hfd, Hdf. reflexivity.
  - rewrite Htm, Harm, Hda. eexists. cbn. rewrite delete_singleton_eq.
    apply insert_empty.
Qed.

End TimerProps.

(** C6: the code at the schedule on which the claim fails.  The owner
    starts the record; the timer fires and its callback is started but
    has not yet taken the lock; the owner stops the record, which finds
    the fired timer, and starts it again, which arms a second timer;
    the waiting callback now takes the lock, finds a timer set, renews
    and arms a third timer.  The second and the third timer are both
    pending, and the record refers to the third only. *)
Theorem stop_start_race_arms_two_timers :
  let final := @run Demo.envOk Demo.race_schedule (@Demo.init Demo.envOk ∅ 11 None) in
  (dr_timer <$> final) = Some (Some 2%nat) /\
  ((fun s => armed s !! 1%nat) <$> final) = Some (Some (15 * Demo.day - 1000000006)) /\
  ((fun s => armed s !! 2%nat) <$> final) = Some (Some (60 * Demo.day - 2000000007)) /\
  ((fun s => size (armed s)) <$> final) = Some 2%nat.
Proof. vm_compute. repeat split. Qed.

(** ** The claims at concrete inputs *)

Section AtIssuerUp.
#[local] Existing Instance Demo.envOk.
Import Demo.

(** A certificate cached by a peer, eighty days from expiry. *)
Lemma do_adopts_cached_witness :
  let tc := {| Certificate := [[7]]; PrivateKey_of := SignerKey 3;
               Leaf := {| NotAfter := t2026 + 80 * day; Raw := [7] |} |} in
  let s := init (cached (SignerKey 3) (t2026 + 80 * day)) 11 None in
  cacheGet (m_cache s) (dr_ck s) = Ok tc /\
  Int64.add renewBefore renewJitter < (next (NotAfter (Leaf tc)) s).1 /\
  asSigner (PrivateKey_of tc) = Some 3 /\
  (do s).1 = Ok (next (NotAfter (Leaf tc)) s).1 /\
  issuer_calls (do s).2 = issuer_calls s.
Proof.
  intros tc s.
  assert (H1 : cacheGet (m_cache s) (dr_ck s) = Ok tc) by (vm_compute; reflexivity).
  assert (H2 : Int64.add renewBefore renewJitter < (next (NotAfter (Leaf tc)) s).1)
    by (vm_compute; reflexivity).
  assert (H3 : asSigner (PrivateKey_of tc) = Some 3) by reflexivity.
  destruct (do_adopts_cached s tc 3 H1 H2 H3) as (Hr & _ & Hi & _).
  exact (conj H1 (conj H2 (conj H3 (conj Hr Hi)))).
Defined.

Lemma do_adopt_frame_witness :
  let tc := {| Certificate := [[7]]; PrivateKey_of := SignerKey 3;
               Leaf := {| NotAfter := t2026 + 80 * day; Raw := [7] |} |} in
  let s := init (cached (SignerKey 3) (t2026 + 80 * day)) 11 None in
  cacheGet (m_cache s) (dr_ck s) = Ok tc /\
  Int64.add renewBefore renewJitter < (next (NotAfter (Leaf tc)) s).1 /\
  asSigner (PrivateKey_of tc) = Some 3 /\
  m_cache (do s).2 = m_cache s /\
  dr_key (do s).2 = 3.
Proof.
  intros tc s.
  assert (H1 : cacheGet (m_cache s) (dr_ck s) = Ok tc) by (vm_compute; reflexivity).
  assert (H2 : Int64.add renewBefore renewJitter < (next (NotAfter (Leaf tc)) s).1)
    by (vm_compute; reflexivity).
  assert (H3 : asSigner (PrivateKey_of tc) = Some 3) by reflexivity.
  destruct (do_adopt_frame s tc 3 H1 H2 H3) as (Hc & _ & _ & Hk & _).
  exact (conj H1 (conj H2 (conj H3 (conj Hc Hk)))).
Defined.

(** The same certificate with a key that cannot sign. *)
Lemma do_falls_through_without_signer_witness :
  let tc := {| Certificate := [[7]]; PrivateKey_of := OpaqueKey 9;
               Leaf := {| NotAfter := t2026 + 80 * day; Raw := [7] |} |} in
  let s := init (cached (OpaqueKey 9) (t2026 + 80 * day)) 11 None in
  cacheGet (m_cache s) (dr_ck s) = Ok tc /\
  Int64.add renewBefore renewJitter < (next (NotAfter (Leaf tc)) s).1 /\
  asSigner (PrivateKey_of tc) = None /\
  (do_cached s).1 = None /\
  do s = do_issue (do_cached s).2.
Proof.
  intros tc s.
  assert (H1 : cacheGet (m_cache s) (dr_ck s) = Ok tc) by (vm_compute; reflexivity).
  assert (H2 : Int64.add renewBefore renewJitter < (next (NotAfter (Leaf tc)) s).1)
    by (vm_compute; reflexivity).
  assert (H3 : asSigner (PrivateKey_of tc) = None) by reflexivity.
  destruct (do_falls_through_without_signer s tc H1 H2 H3) as (Hn & Hd & _).
  exact (conj H1 (conj H2 (conj H3 (conj Hn Hd)))).
Defined.

(** An empty cache and an issuer that answers. *)
Lemma do_issue_commit_witness :
  let s := init ∅ 11 None in
  let st := {| key := 11; cert := [[0]];
               leaf := {| NotAfter := t2026 + 90 * day; Raw := [0] |} |} in
  (do_cached s).1 = None /\
  (do s).1 = Ok (60 * day - 5) /\
  m_state (do s).2 !! dr_ck s = Some st.
Proof.
  intros s st.
  assert (H1 : (do_cached s).1 = None) by (vm_compute; reflexivity).
  assert (H2 : (do s).1 = Ok (60 * day - 5)) by (vm_compute; reflexivity).
  destruct (do_issue_commit s _ H1 H2)
    as (der & lf & tc & Ha & _ & _ & _ & Hm & _).
  split; [exact H1 |]. split; [exact H2 |].
  rewrite Hm. injection Ha as <- <-. reflexivity.
Defined.

Lemma lock_discipline_witness :
  let s := init ∅ 11 (Some 0%nat) in
  dr_timer s = Some 0%nat /\
  EvCacheGet (dr_ck s) ∈ calls_under timerMu false (events_of renew s).
Proof.
  intros s. split; [reflexivity |].
  destruct (lock_discipline s 0) as (_ & _ & _ & _ & _ & Hin).
  exact (Hin 0%nat eq_refl).
Defined.

End AtIssuerUp.

Section AtIssuerDown.
#[local] Existing Instance Demo.envNoIssuer.
Import Demo.

Lemma do_failure_no_partial_commit_witness :
  let s := init ∅ 11 None in
  (do_cached s).1 = None /\
  failing_step s = Some (Issuance, "issuance failed") /\
  (do s).1 = Err "issuance failed" /\
  m_state (do s).2 = m_state s /\
  dr_key (do s).2 = dr_key s.
Proof.
  intros s.
  assert (H1 : (do_cached s).1 = None) by (vm_compute; reflexivity).
  assert (H2 : failing_step s = Some (Issuance, "issuance failed"))
    by (vm_compute; reflexivity).
  destruct (do_failure_no_partial_commit s _ _ H1 H2) as (He & Hm & Hk & _).
  exact (conj H1 (conj H2 (conj He (conj Hm Hk)))).
Defined.

Lemma renew_backoff_witness :
  let s := init ∅ 11 (Some 0%nat) in
  let r := do (Lock timerMu s).2 in
  dr_timer s = Some 0%nat /\
  r.1 = Err "issuance failed" /\
  armed (renew s).2 !! timers_made r.2 =
    Some (Z.quot renewJitter 2 + rand63 (rand_draws r.2) mod Z.quot renewJitter 2).
Proof.
  intros s r.
  assert (H1 : dr_timer s = Some 0%nat) by reflexivity.
  assert (H2 : r.1 = Err "issuance failed") by (vm_compute; reflexivity).
  destruct (renew_backoff s 0%nat _ H1 H2) as (_ & _ & _ & Ha & _).
  exact (conj H1 (conj H2 Ha)).
Defined.

Lemma renew_loop_witness :
  let s := init ∅ 11 (Some 0%nat) in
  dr_timer s = Some 0%nat /\ looping (renew s).2.
Proof.
  intros s. split; [reflexivity |].
  destruct (renew_loop s) as (_ & Harmed & _).
  destruct (Harmed 0%nat eq_refl) as (d & err & _ & _ & _ & _ & _ & _ & Hl).
  exact Hl.
Defined.

End AtIssuerDown.

(** * Further properties *)

(** ** Stopping *)

Section StopProps.
Context `{Collaborators}.

(** X1: after [stop] the record has no timer and the timer it had is
    not pending; the other timers, the map, the cache and the key are
    as before, and a second [stop] only takes and releases the lock. *)
Theorem stop_clears_timer (s : St) :
  let s' := (stop s).2 in
  dr_timer s' = None /\
  (forall t, dr_timer s = Some t -> armed s' !! t = None) /\
  (forall t, dr_timer s <> Some t -> armed s' !! t = armed s !! t) /\
  m_state s' = m_state s /\ m_cache s' = m_cache s /\ dr_key s' = dr_key s /\
  fired s' = fired s /\ timers_made s' = timers_made s /\
  armed (stop s').2 = armed s' /\
  events_of stop s' = [EvLock timerMu; EvUnlock timerMu].
Proof.
  intros s'.
  assert (Hidle : dr_timer s' = None).
  { subst s'. unfold stop. unfold_M. step_M. destruct (dr_timer s) eqn:?; step_M; done. }
  split; [exact Hidle |].
  assert (Hsecond : (stop s').2 = set_trace (trace s' ++ [EvLock timerMu; EvUnlock timerMu]) s')
    by (by apply stop_idle).
  repeat match goal with |- _ /\ _ => split end.
  - intros t Ht. subst s'. destruct (stop_armed s t Ht) as (_ & -> & _).
    apply lookup_delete_eq.
  - intros t Ht. subst s'. unfold stop. unfold_M. step_M.
    destruct (dr_timer s) as [t0|] eqn:?; step_M; [| done].
    apply lookup_delete_ne. congruence.
  - subst s'. unfold stop. unfold_M. step_M. destruct (dr_timer s) eqn:?; step_M; done.
  - subst s'. unfold stop. unfold_M. step_M. destruct (dr_timer s) eqn:?; step_M; done.
  - subst s'. unfold stop. unfold_M. step_M. destruct (dr_timer s) eqn:?; step_M; done.
  - subst s'. unfold stop. unfold_M. step_M. destruct (dr_timer s) eqn:?; step_M; done.
  - subst s'. unfold stop. unfold_M. step_M. destruct (dr_timer s) eqn:?; step_M; done.
  - by rewrite Hsecond.
  - apply events_of_app. by rewrite Hsecond.
Qed.

(** X2: whatever the record was doing, [stop] followed by [start] leaves
    it with a new pending timer, armed with the delay that [next] gives
    for the expiry passed to [start], and with no other timer of its
    own pending. *)
Theorem start_after_stop (s : St) (exp : Time) :
  let s' := (start exp (stop s).2).2 in
  let t' := timers_made s in
  dr_timer s' = Some t' /\
  armed s' !! t' = Some (next exp s).1 /\
  0 <= (next exp s).1 /\
  timers_made s' = S t' /\
  (forall t, dr_timer s = Some t -> t <> t' -> armed s' !! t = None).
Proof.
  intros s' t'.
  assert (Hidle : dr_timer (stop s).2 = None).
  { unfold stop. unfold_M. step_M. destruct (dr_timer s) eqn:?; step_M; done. }
  assert (Hmade : timers_made (stop s).2 = timers_made s).
  { unfold stop. unfold_M. step_M. destruct (dr_timer s) eqn:?; step_M; done. }
  assert (Hclock : clock_reads (stop s).2 = clock_reads s /\
                   rand_draws (stop s).2 = rand_draws s).
  { unfold stop. unfold_M. step_M. destruct (dr_timer s) eqn:?; step_M; done. }
  destruct (start_idle _ exp Hidle) as (Ht & Ha & Hm & _).
  fold s' in Ht, Ha, Hm. rewrite Hmade in Ht, Ha, Hm. fold t' in Ht, Ha, Hm.
  rewrite (next_fst_counters exp s (stop s).2) in Ha by apply Hclock.
  split; [exact Ht |]. split; [rewrite Ha; apply lookup_insert_eq |].
  split; [apply next_nonneg |]. split; [exact Hm |].
  intros t Hs Hne. rewrite Ha, lookup_insert_ne by done.
  destruct (stop_armed s t Hs) as (_ & -> & _). apply lookup_delete_eq.
Qed.

(** X3: when the timer of the record has fired and [stop] gets the lock
    before the started callback does, the callback finds the timer
    cleared and returns: the record stays stopped, no timer is created,
    no collaborator is called and nothing is reported. *)
Theorem stopped_callback_aborts (s : St) (t : TimerId) (d : Duration) :
  dr_timer s = Some t ->
  armed s !! t = Some d ->
  exists s',
    run [OpFire t; OpStop; OpRenew] s = Some s' /\
    dr_timer s' = None /\
    armed s' = delete t (armed s) /\
    timers_made s' = timers_made s /\
    fired s' = fired s /\
    m_state s' = m_state s /\ m_cache s' = m_cache s /\ dr_key s' = dr_key s /\
    issuer_calls s' = issuer_calls s /\
    trace s' = trace s ++ [EvLock timerMu; EvTimerStop t; EvUnlock timerMu;
                           EvLock timerMu; EvUnlock timerMu].
Proof.
  intros Ht Ha. cbn [run step]. rewrite Ha.
  unfold stop, renew. unfold_M. step_M. rewrite Ht. step_M.
  eexists. split; [reflexivity |]. step_M. norm_trace.
  rewrite delete_delete_eq. done.
Qed.

End StopProps.

(** ** Starting *)

Section StartProps.
Context `{Collaborators}.

Lemma starts_when_armed_quiet exps s t :
  dr_timer s = Some t ->
  exists s' evs,
    run (map OpStart exps) s = Some s' /\
    dr_timer s' = Some t /\ armed s' = armed s /\ timers_made s' = timers_made s /\
    clock_reads s' = clock_reads s /\ rand_draws s' = rand_draws s /\
    trace s' = trace s ++ evs /\ List.filter is_timer_made evs = [].
Proof.
  revert s. induction exps as [|exp exps IH]; intros s Ht.
  - exists s, []. rewrite app_nil_r. done.
  - cbn [map run step]. rewrite (start_armed s exp t Ht).
    set (s1 := set_trace _ s).
    destruct (IH s1 Ht) as (s' & evs & Hrun & ? & ? & ? & ? & ? & Htr & Hq).
    exists s', ([EvLock timerMu; EvUnlock timerMu] ++ evs).
    split; [exact Hrun |]. do 5 (split; [done |]). split.
    + rewrite Htr. subst s1. cbn [trace set_trace]. by rewrite <- app_assoc.
    + rewrite List.filter_app, Hq. reflexivity.
Qed.

(** X4: however often [start] is called on a record without a timer,
    with no [stop] in between, one timer is created: the first call
    arms it with the delay of its own expiry, and the later calls
    neither create a timer nor read the clock or the random source. *)
Theorem repeated_start_arms_once (s : St) (exp : Time) (exps : list Time) :
  dr_timer s = None ->
  exists s',
    run (map OpStart (exp :: exps)) s = Some s' /\
    dr_timer s' = Some (timers_made s) /\
    armed s' = <[timers_made s := (next exp s).1]> (armed s) /\
    timers_made s' = S (timers_made s) /\
    clock_reads s' = S (clock_reads s) /\
    rand_draws s' = S (rand_draws s) /\
    length (List.filter is_timer_made (drop (length (trace s)) (trace s'))) = 1%nat.
Proof.
  intros Ht. destruct (start_idle s exp Ht) as (Ht' & Ha & Hm & _ & Htr).
  assert (Hc : clock_reads (start exp s).2 = S (clock_reads s) /\
               rand_draws (start exp s).2 = S (rand_draws s)).
  { unfold start. unfold_M. step_M. rewrite Ht, !next_unfold. step_M. done. }
  destruct (starts_when_armed_quiet exps _ _ Ht')
    as (s' & evs & Hrun & ? & ? & ? & Hcl & Hrd & Htr' & Hq).
  exists s'. cbn [map run step]. split; [exact Hrun |].
  split; [done |]. split; [congruence |]. split; [congruence |].
  split; [rewrite Hcl; apply Hc |]. split; [rewrite Hrd; apply Hc |].
  rewrite Htr', Htr, <- app_assoc, drop_app_length, List.filter_app, Hq.
  reflexivity.
Qed.

(** X5: from a record whose only pending timer, if any, is the one it
    refers to, any sequence of [start], [stop] and turns in which every
    callback runs as soon as its timer fires leaves at most one timer
    pending, the one the record refers to. *)
Theorem one_timer_invariant (cs : list Call) (s s' : St) :
  one_timer s ->
  calls cs s = Some s' ->
  one_timer s' /\ (size (armed s') <= 1)%nat.
Proof.
  revert s. induction cs as [|c cs IH]; intros s Hs.
  - intros [= <-]. split; [exact Hs | by apply one_timer_size].
  - cbn [calls]. destruct (call c s) as [s1|] eqn:Hc; [| discriminate].
    apply IH. destruct c as [exp| |]; cbn [call] in Hc.
    + injection Hc as <-. by apply one_timer_start.
    + injection Hc as <-. by apply one_timer_stop.
    + by apply (one_timer_turn s).
Qed.

End StartProps.

(** ** The renewal algorithm on all its paths *)

Section DoPaths.
Context `{Collaborators}.

Lemma do_cached_some s d :
  (do_cached s).1 = Some d ->
  exists tc signer,
    cacheGet (m_cache s) (dr_ck s) = Ok tc /\
    Int64.add renewBefore renewJitter < (next (NotAfter (Leaf tc)) s).1 /\
    asSigner (PrivateKey_of tc) = Some signer /\
    d = (next (NotAfter (Leaf tc)) s).1.
Proof.
  unfold_M. step_M.
  destruct (cacheGet _ _) as [tc|e0]; step_M; [| discriminate].
  rewrite !next_unfold. step_M.
  destruct (Int64.add _ _ <? _) eqn:Hfar; step_M; [| discriminate].
  destruct (asSigner _) as [signer|] eqn:Hsig; step_M; [| discriminate].
  intros [= <-]. exists tc, signer. apply Z.ltb_lt in Hfar. rewrite !next_unfold. done.
Qed.

(** What [do] adds to the trace, whatever path it takes. *)
Lemma do_events_all s :
  exists evs,
    trace (do s).2 = trace s ++ evs /\
    forallb (fun e => negb (is_timer_made e || is_report e)) evs = true /\
    (length (List.filter is_cache_write evs) <= 1)%nat /\
    issuer_calls (do s).2 = (issuer_calls s + length (List.filter is_issuer_call evs))%nat /\
    (length (List.filter is_issuer_call evs) <= 1)%nat /\
    lock_scan (MkHeld false false) evs = Some (MkHeld false false) /\
    lock_scan (MkHeld true false) evs = Some (MkHeld true false).
Proof.
  unfold do. unfold_M. step_M.
  destruct (cacheGet _ _) as [tc|e0]; step_M;
    [rewrite next_unfold; step_M;
     destruct (Int64.add _ _ <? _); step_M;
     [destruct (asSigner _); step_M |] |];
    try (destruct (authorizedCert _ _ _) as [[der lf]|e1]; step_M;
         [destruct (tlscert _) as [tc'|e2]; step_M;
          [destruct (cachePut _ _ _).2 as [e3|]; step_M |] |]);
    rewrite ?next_unfold; step_M; norm_trace;
    (eexists; split; [reflexivity |]); step_M;
    repeat split; first [reflexivity | lia].
Qed.

(** X6: [do] asks the issuer at most once, and it asks unless the cache
    holds a certificate whose delay exceeds the lead time plus the
    jitter window and whose key is a signer: with a failing cache read,
    with a certificate close to expiry, and with a key that is no
    signer, the issuer is asked. *)
Theorem issuer_called_unless_adopted (s : St) :
  (issuer_calls (do s).2 = issuer_calls s \/
   issuer_calls (do s).2 = S (issuer_calls s)) /\
  (issuer_calls (do s).2 = issuer_calls s <->
   exists tc signer,
     cacheGet (m_cache s) (dr_ck s) = Ok tc /\
     Int64.add renewBefore renewJitter < (next (NotAfter (Leaf tc)) s).1 /\
     asSigner (PrivateKey_of tc) = Some signer).
Proof.
  rewrite do_unfold. destruct (do_cached s).1 as [d|] eqn:Hr.
  - destruct (do_cached_some s d Hr) as (tc & signer & Hget & Hfar & Hsig & _).
    destruct (do_cached_adopt s tc signer Hget Hfar Hsig) as (_ & _ & _ & _ & Hi & _).
    cbn [snd]. split; [by left |]. split; [eauto | done].
  - destruct (do_cached_skip s Hr) as (_ & _ & _ & Hi & _).
    assert (Hs : issuer_calls (do_issue (do_cached s).2).2 = S (issuer_calls s)).
    { destruct (do_issue (do_cached s).2).1 as [d|e] eqn:Hd.
      - destruct (do_issue_ok _ _ Hd) as (? & ? & ? & _ & _ & _ & _ & _ & _ & Hn & _).
        congruence.
      - destruct (do_issue_err _ _ Hd) as (_ & _ & _ & Hn & _). congruence. }
    split; [by right |]. split; [lia |].
    intros (tc & signer & Hget & Hfar & Hsig).
    destruct (do_cached_adopt s tc signer Hget Hfar Hsig) as (Hsome & _).
    congruence.
Qed.

(** X7: on every path [do] leaves the map entries of all other domains,
    the timer of the record and the timers of the runtime as they were,
    writes the cache at most once, and neither creates a timer nor
    reports to [testDidRenewLoop]. *)
Theorem do_frame_all_paths (s : St) :
  (forall ck', ck' <> dr_ck s -> m_state (do s).2 !! ck' = m_state s !! ck') /\
  same_timers s (do s).2 /\
  (length (List.filter is_cache_write (events_of do s)) <= 1)%nat /\
  forallb (fun e => negb (is_timer_made e || is_report e)) (events_of do s) = true.
Proof.
  destruct (do_events_all s) as (evs & Htr & Hq & Hw & _).
  rewrite (events_of_app do s evs Htr).
  split; [| split; [apply do_same_timers | done]].
  intros ck' Hne. rewrite do_unfold. destruct (do_cached s).1 as [d|] eqn:Hr.
  - destruct (do_cached_some s d Hr) as (tc & signer & Hget & Hfar & Hsig & _).
    destruct (do_cached_adopt s tc signer Hget Hfar Hsig) as (_ & Hm & _).
    cbn [snd]. rewrite Hm. by apply lookup_insert_ne.
  - destruct (do_cached_skip s Hr) as (Hm & _ & _ & _ & (Hck & _) & _).
    destruct (do_issue (do_cached s).2).1 as [d|e] eqn:Hd.
    + destruct (do_issue_ok _ _ Hd) as (? & ? & ? & _ & _ & _ & Hm' & _).
      rewrite Hm', Hck, Hm. by apply lookup_insert_ne.
    + destruct (do_issue_err _ _ Hd) as (Hm' & _). by rewrite Hm', Hm.
Qed.

(** X8: after a successful [do], by adoption or by issuance, the map
    holds a state for the domain whose key is the key of the record, and
    the delay returned is the [next] of the expiry of that state's leaf,
    taken at the last clock reading and the last draw; it is never
    negative. *)
Theorem do_success_consistent (s : St) (d : Duration) :
  (do s).1 = Ok d ->
  0 <= d /\
  exists st s0,
    m_state (do s).2 !! dr_ck s = Some st /\
    key st = dr_key (do s).2 /\
    clock_reads (do s).2 = S (clock_reads s0) /\
    rand_draws (do s).2 = S (rand_draws s0) /\
    d = (next (NotAfter (leaf st)) s0).1.
Proof.
  rewrite do_unfold. destruct (do_cached s).1 as [d0|] eqn:Hr.
  - intros [= <-].
    destruct (do_cached_some s d0 Hr) as (tc & signer & Hget & Hfar & Hsig & ->).
    destruct (do_cached_adopt s tc signer Hget Hfar Hsig) as (_ & Hm & Hk & _).
    split; [apply next_nonneg |]. cbn [snd].
    eexists _, s. split; [rewrite Hm; apply lookup_insert_eq |].
    split; [by rewrite Hk |].
    revert Hr. unfold_M. step_M. rewrite Hget, !next_unfold. step_M.
    apply Z.ltb_lt in Hfar. rewrite next_unfold in Hfar. cbn [fst] in Hfar.
    rewrite Hfar, Hsig. step_M. done.
  - intros Hd. destruct (do_cached_skip s Hr) as (_ & _ & _ & _ & (Hck & _) & _).
    destruct (do_issue_ok _ _ Hd) as (der & lf & tc & _ & _ & _ & Hm & Hk & -> & _).
    split; [apply next_nonneg |].
    eexists _, (do_cached s).2. split; [rewrite Hm, Hck; apply lookup_insert_eq |].
    split; [by rewrite Hk |].
    revert Hd. unfold do_issue. unfold_M. step_M.
    destruct (authorizedCert _ _ _) as [[der' lf']|e1]; step_M; [| discriminate].
    destruct (tlscert _) as [tc'|e2]; step_M; [| discriminate].
    destruct (cachePut _ _ _).2 as [e3|]; step_M; [discriminate |].
    rewrite !next_unfold. step_M. done.
Qed.

End DoPaths.

(** ** Delays *)

Section DelayProps.
Context `{Collaborators}.

Lemma do_ok_is_next s d :
  (do s).1 = Ok d -> exists E s0, d = (next E s0).1.
Proof.
  rewrite do_unfold. destruct (do_cached s).1 as [d0|] eqn:Hr.
  - intros [= <-]. destruct (do_cached_some s d0 Hr) as (tc & _ & _ & _ & _ & ->). eauto.
  - intros Hd. destruct (do_issue_ok _ _ Hd) as (? & lf & ? & _ & _ & _ & _ & _ & -> & _).
    eauto.
Qed.

Lemma renew_outcome_range r :
  0 <= (renew_outcome (do r)).1 /\ Int64.in_range (renew_outcome (do r)).1.
Proof.
  unfold renew_outcome. destruct (do r).1 as [d|e] eqn:Hd; cbn [fst].
  - destruct (do_ok_is_next r d Hd) as (E & s0 & ->).
    split; [apply next_nonneg | apply next_in_range].
  - destruct (backoff_bounds (rand63 (rand_draws (do r).2))) as (_ & -> & Hb).
    change (Z.quot renewJitter 2) with 1800000000000 in *.
    rewrite renewJitter_value in Hb.
    unfold Int64.in_range, Int64.min, Int64.max. lia.
Qed.

(** X9: every delay that [start] or [renew] passes to [time.AfterFunc]
    is a [Duration] that is not negative, whether it comes from [next],
    from a successful [do] or from the backoff after a failed one. *)
Theorem reschedule_nonnegative (s : St) (exp : Time) (d : Duration) (t : TimerId) :
  EvAfterFunc d t ∈ events_of (start exp) s \/ EvAfterFunc d t ∈ events_of renew s ->
  0 <= d /\ Int64.in_range d.
Proof.
  intros [Hin | Hin].
  - destruct (dr_timer s) as [t0|] eqn:Ht.
    + rewrite (events_of_app (start exp) s [EvLock timerMu; EvUnlock timerMu]) in Hin
        by (by rewrite (start_armed s exp t0 Ht)).
      rewrite !elem_of_cons, elem_of_nil in Hin. by destruct Hin as [|[|]].
    + destruct (start_idle s exp Ht) as (_ & _ & _ & _ & Htr).
      rewrite (events_of_app (start exp) s _ Htr) in Hin.
      rewrite !elem_of_cons, elem_of_nil in Hin.
      destruct Hin as [|[[= -> _]|[|]]]; try done.
      split; [apply next_nonneg | apply next_in_range].
  - destruct (dr_timer s) as [t0|] eqn:Ht.
    + destruct (renew_armed s t0 Ht) as (_ & _ & _ & _ & _ & _ & _ & Htr).
      destruct (do_events_all (Lock timerMu s).2) as (evs & Hdo & Hq & _).
      rewrite Hdo in Htr. cbn [Lock emit modify snd trace set_trace] in Htr.
      rewrite <- !app_assoc in Htr. rewrite (events_of_app renew s _ Htr) in Hin.
      rewrite !elem_of_app, !elem_of_cons, elem_of_nil in Hin.
      destruct Hin as [[|[]]|[Hin|[[= -> _]|[|[|[]]]]]]; try done.
      * apply list_elem_of_In in Hin.
        pose proof (proj1 (List.forallb_forall _ _) Hq _ Hin) as Hno. done.
      * apply renew_outcome_range.
    + rewrite (events_of_app renew s [EvLock timerMu; EvUnlock timerMu]) in Hin
        by (by rewrite renew_idle).
      rewrite !elem_of_cons, elem_of_nil in Hin. by destruct Hin as [|[|]].
Qed.

(** X10: while the differences fit a [Duration], a certificate that is
    within the lead time of its expiry, or past it, is due at once, and
    one with more than the lead time and the jitter window left is due
    in the jitter window that ends the lead time before its expiry. *)
Theorem next_window (E : Time) (s : St) :
  let N := now (clock_reads s) in
  let L := renewBefore in
  let d := (next E s).1 in
  Int64.in_range (E - N) ->
  Int64.in_range (E - N - L) ->
  Int64.in_range (E - N - L - renewJitter) ->
  (E - N <= L -> d = 0) /\
  (L + renewJitter <= E - N -> E - L - renewJitter < N + d <= E - L).
Proof.
  intros N L d HEN HL HLJ. subst N L d.
  rewrite next_unfold. cbn -[Int64.wrap Z.modulo renewJitter Z.ltb].
  unfold time.Sub. rewrite (clamp_id _ HEN).
  pose proof (int63n_bound (rand63 (rand_draws s)) renewJitter
                ltac:(by rewrite renewJitter_value)) as HU.
  rewrite wrap_id by (unfold Int64.in_range in *; lia).
  match goal with |- context [?x <? 0] => destruct (Z.ltb_spec x 0) end; lia.
Qed.

End DelayProps.

(** ** Locks on all paths *)

Section LockOrder.
Context `{Collaborators}.

Lemma lock_scan_app h evs evs' :
  lock_scan h (evs ++ evs') =
    match lock_scan h evs with
    | Some h' => lock_scan h' evs'
    | None => None
    end.
Proof.
  revert h. induction evs as [|e evs IH]; intros h; [done |].
  destruct e; cbn [app lock_scan]; rewrite ?IH; try reflexivity.
  - by destruct (holds h mu || holds h stateMu).
  - by destruct (holds h mu).
  - by destruct (holds h stateMu).
  - by destruct (holds h stateMu).
Qed.

(** X11: on every path of [start], [stop], [do] and [renew] each lock
    that is taken is released before the method returns, no lock is
    taken that is already held, nothing is locked while the lock of the
    map is held, and the key of the record and the map are written only
    with the lock of the map held; [do] keeps to this with the lock of
    the timer held by its caller. *)
Theorem locks_balanced (s : St) (exp : Time) :
  let free := MkHeld false false in
  lock_scan free (events_of (start exp) s) = Some free /\
  lock_scan free (events_of stop s) = Some free /\
  lock_scan free (events_of do s) = Some free /\
  lock_scan (MkHeld true false) (events_of do s) = Some (MkHeld true false) /\
  lock_scan free (events_of renew s) = Some free.
Proof.
  intros free. split; [| split; [| split; [| split]]].
  - destruct (dr_timer s) as [t|] eqn:Ht.
    + by rewrite (events_of_app (start exp) s [EvLock timerMu; EvUnlock timerMu])
        by (by rewrite (start_armed s exp t Ht)).
    + destruct (start_idle s exp Ht) as (_ & _ & _ & _ & Htr).
      by rewrite (events_of_app (start exp) s _ Htr).
  - destruct (dr_timer s) as [t|] eqn:Ht.
    + destruct (stop_armed s t Ht) as (_ & _ & _ & _ & Htr).
      by rewrite (events_of_app stop s _ Htr).
    + by rewrite (events_of_app stop s [EvLock timerMu; EvUnlock timerMu])
        by (by rewrite (stop_idle s Ht)).
  - destruct (do_events_all s) as (evs & Htr & _ & _ & _ & _ & Hfree & _).
    by rewrite (events_of_app do s evs Htr).
  - destruct (do_events_all s) as (evs & Htr & _ & _ & _ & _ & _ & Hheld).
    by rewrite (events_of_app do s evs Htr).
  - destruct (dr_timer s) as [t|] eqn:Ht.
    + destruct (renew_armed s t Ht) as (_ & _ & _ & _ & _ & _ & _ & Htr).
      destruct (do_events_all (Lock timerMu s).2) as (evs & Hdo & _ & _ & _ & _ & _ & Hheld).
      rewrite Hdo in Htr. cbn [Lock emit modify snd trace set_trace] in Htr.
      rewrite <- !app_assoc in Htr. rewrite (events_of_app renew s _ Htr).
      cbn [app lock_scan holds holds_timerMu holds_stateMu free orb set_held].
      by rewrite lock_scan_app, Hheld.
    + by rewrite (events_of_app renew s [EvLock timerMu; EvUnlock timerMu])
        by (by rewrite renew_idle).
Qed.

End LockOrder.

(** ** Two records on one cache *)

Section Handoff.
Context `{Collaborators}.

(** X12: two records of the same domain on one cache.  Let the cache
    return what was last written to it without error, and let the TLS
    certificate derived from a state carry the key, the chain and the
    leaf of that state.  When the first record has renewed by issuance
    and the second then runs [do] on the cache the first left, with the
    new certificate far enough from expiry, the second asks no issuer
    and ends with the same state in its map and the same key as the
    first. *)
Theorem peer_handoff (sA sB : St) (dA : Duration) :
  (forall c k tc c', cachePut c k tc = (c', None) -> cacheGet c' k = Ok tc) ->
  (forall st tc, tlscert st = Ok tc ->
     PrivateKey_of tc = SignerKey (key st) /\ Certificate tc = cert st /\ Leaf tc = leaf st) ->
  (do_cached sA).1 = None ->
  (do sA).1 = Ok dA ->
  m_cache sB = m_cache (do sA).2 ->
  dr_ck sB = dr_ck sA ->
  (forall st, m_state (do sA).2 !! dr_ck sA = Some st ->
     Int64.add renewBefore renewJitter < (next (NotAfter (leaf st)) sB).1) ->
  issuer_calls (do sB).2 = issuer_calls sB /\
  m_cache (do sB).2 = m_cache (do sA).2 /\
  m_state (do sB).2 !! dr_ck sB = m_state (do sA).2 !! dr_ck sA /\
  dr_key (do sB).2 = dr_key (do sA).2 /\
  exists st, m_state (do sB).2 !! dr_ck sB = Some st /\
             (do sB).1 = Ok (next (NotAfter (leaf st)) sB).1.
Proof.
  intros Hcache Htls HrA HokA HcB HckB Hfar.
  assert (HdoA : do sA = do_issue (do_cached sA).2) by (by rewrite do_unfold, HrA).
  rewrite HdoA in HokA, HcB, Hfar |- *.
  destruct (do_cached_skip sA HrA) as (HmA & HkA & HcA & _ & (HckA & _) & _).
  destruct (do_issue_ok _ _ HokA)
    as (der & lf & tc & _ & Htc & Hput & HmA' & HkA' & _).
  rewrite HckA, HkA in *.
  set (stA := {| key := dr_key sA; cert := der; leaf := lf |}) in *.
  pose proof (Hcache _ _ _ _ Hput) as Hget. rewrite <- HcB, <- HckB in Hget.
  destruct (Htls _ _ Htc) as (Hpk & Hchain & Hleaf). cbn [key cert leaf stA] in Hpk, Hchain, Hleaf.
  assert (HstA : m_state (do_issue (do_cached sA).2).2 !! dr_ck sA = Some stA)
    by (rewrite HmA'; apply lookup_insert_eq).
  pose proof (Hfar stA HstA) as HfarB. cbn [leaf stA] in HfarB. rewrite <- Hleaf in HfarB.
  assert (Hsig : asSigner (PrivateKey_of tc) = Some (dr_key sA)) by (by rewrite Hpk).
  destruct (do_cached_adopt sB tc (dr_key sA) Hget HfarB Hsig)
    as (HrB & HmB & HkB & HcB' & HiB & _).
  assert (HdoB : do sB = (Ok (next (NotAfter (Leaf tc)) sB).1, (do_cached sB).2))
    by (by rewrite do_unfold, HrB).
  rewrite HdoB. cbn [fst snd]. rewrite Hchain, Hleaf in HmB. fold stA in HmB.
  assert (HstB : m_state (do_cached sB).2 !! dr_ck sB = Some stA)
    by (rewrite HmB; apply lookup_insert_eq).
  split; [exact HiB |]. split; [congruence |]. split; [congruence |].
  split; [congruence |]. exists stA. split; [exact HstB |]. by rewrite Hleaf.
Qed.

End Handoff.

(** ** Turns of the loop *)

Section TurnProps.
Context `{Collaborators}.

Lemma turn_counts s s1 :
  turn s = Some s1 ->
  timers_made s1 = S (timers_made s) /\
  (issuer_calls s1 <= S (issuer_calls s))%nat /\
  exists evs, trace s1 = trace s ++ evs /\
              length (List.filter is_report evs) = 1%nat.
Proof.
  unfold turn. destruct (dr_timer s) as [t|] eqn:Ht; [| discriminate].
  cbn [run step]. destruct (armed s !! t) as [d|]; [| discriminate].
  cbn [fired set_fired set_armed]. set (sf := set_fired (fired s) _). intros [= <-].
  assert (Hsf : dr_timer sf = Some t) by exact Ht.
  destruct (renew_armed sf t Hsf) as (_ & _ & Hm & _ & _ & _ & _ & Htr).
  destruct (do_events_all (Lock timerMu sf).2) as (evs & Hdo & Hq & _ & Hi & Hle & _).
  destruct (do_same_timers (Lock timerMu sf).2) as (_ & _ & Hdm & _).
  assert (Hic : issuer_calls (renew sf).2 = issuer_calls (do (Lock timerMu sf).2).2).
  { unfold renew, pseudoRand_int63n. unfold_M. step_M. rewrite Ht. step_M.
    destruct (do _) as [[d0|e] s1]; step_M; done. }
  split; [by rewrite Hm, Hdm |]. split; [rewrite Hic, Hi; cbn; lia |].
  rewrite Hdo in Htr. cbn [Lock emit modify snd trace set_trace sf] in Htr.
  rewrite <- !app_assoc in Htr. eexists. split; [exact Htr |].
  cbn [app List.filter is_report]. rewrite List.filter_app. cbn [List.filter is_report].
  replace (List.filter is_report evs) with (@nil Event); [reflexivity |].
  clear -Hq. induction evs as [|e evs IH]; [done |].
  cbn [forallb] in Hq. apply andb_prop in Hq as [He Hq]. cbn [List.filter].
  destruct (is_report e); [by rewrite orb_true_r in He | by apply IH].
Qed.

(** X13: [n] turns of the loop create exactly [n] timers, report to
    [testDidRenewLoop] exactly [n] times and ask the issuer at most [n]
    times. *)
Theorem turns_count (n : nat) (s s' : St) :
  turns n s = Some s' ->
  timers_made s' = (timers_made s + n)%nat /\
  (issuer_calls s' <= issuer_calls s + n)%nat /\
  length (List.filter is_report (drop (length (trace s)) (trace s'))) = n.
Proof.
  revert s. induction n as [|n IH]; intros s.
  - intros [= <-]. rewrite drop_all. split; [lia |]. split; [lia | done].
  - cbn [turns]. destruct (turn s) as [s1|] eqn:Hturn; [| discriminate].
    intros Hturns. destruct (turn_counts s s1 Hturn) as (Hm & Hi & evs & Htr & Hone).
    destruct (IH s1 Hturns) as (Hm' & Hi' & Hrep).
    split; [lia |]. split; [lia |].
    rewrite Htr, length_app in Hrep.
    assert (Hpre : exists evs', trace s' = trace s ++ evs ++ evs').
    { clear -Hturns Htr. revert s1 Hturns Htr. generalize evs.
      induction n as [|n IHn]; intros evs0 s1 Hturns Htr.
      - injection Hturns as <-. exists []. by rewrite app_nil_r.
      - cbn [turns] in Hturns. destruct (turn s1) as [s2|] eqn:Hturn; [| discriminate].
        destruct (turn_counts s1 s2 Hturn) as (_ & _ & evs1 & Htr1 & _).
        rewrite Htr, <- app_assoc in Htr1.
        destruct (IHn _ _ Hturns Htr1) as [evs' Hs'].
        exists (evs1 ++ evs'). by rewrite Hs', <- !app_assoc. }
    destruct Hpre as [evs' Hs']. rewrite Hs' in Hrep |- *.
    rewrite drop_app_length, List.filter_app, length_app, Hone.
    replace (length (trace s) + length evs)%nat with (length (trace s ++ evs)) in Hrep
      by apply length_app.
    rewrite app_assoc, drop_app_length in Hrep. lia.
Qed.

End TurnProps.

(** ** How far from expiry a certificate is adopted *)

Section AdoptionThreshold.
Context `{Collaborators}.

(** X14: the comparison in [do] is made on the delay, from which the
    lead time is already taken off.  While the quantities fit a
    [Duration] and the lead time is not negative, a cached certificate
    with a signer key is adopted only if more than twice the lead time
    plus the jitter window are left until it expires, and it is adopted
    whenever twice the lead time plus twice the jitter window are
    left. *)
Theorem adoption_needs_twice_lead (s : St) (tc : tlsCertificate) (signer : Signer) :
  let E := NotAfter (Leaf tc) in
  let N := now (clock_reads s) in
  let L := renewBefore in
  cacheGet (m_cache s) (dr_ck s) = Ok tc ->
  asSigner (PrivateKey_of tc) = Some signer ->
  0 <= L ->
  Int64.in_range (L + renewJitter) ->
  Int64.in_range (E - N) ->
  Int64.in_range (E - N - L - renewJitter) ->
  ((do_cached s).1 <> None -> 2 * L + renewJitter < E - N) /\
  (2 * L + 2 * renewJitter <= E - N ->
   (do_cached s).1 = Some (E - N - L - rand63 (rand_draws s) mod renewJitter)).
Proof.
  intros E N L Hget Hsig HL HLJ HEN HENLJ. subst E N L.
  pose proof (int63n_bound (rand63 (rand_draws s)) renewJitter
                ltac:(by rewrite renewJitter_value)) as HU.
  assert (HJ : 0 < renewJitter) by (by rewrite renewJitter_value).
  assert (Hnext : (next (NotAfter (Leaf tc)) s).1 =
                  Z.max 0 (NotAfter (Leaf tc) - now (clock_reads s) - renewBefore
                           - rand63 (rand_draws s) mod renewJitter)).
  { rewrite next_unfold. cbn -[Int64.wrap Z.modulo renewJitter Z.ltb].
    unfold time.Sub. rewrite (clamp_id _ HEN).
    rewrite wrap_id by (unfold Int64.in_range in *; lia).
    match goal with |- context [?x <? 0] => destruct (Z.ltb_spec x 0) end; lia. }
  assert (Hadd : Int64.add renewBefore renewJitter = renewBefore + renewJitter)
    by (by apply wrap_id).
  split.
  - intros Hsome. destruct (do_cached s).1 as [d|] eqn:Hr; [| done].
    destruct (do_cached_some s d Hr) as (tc' & _ & Hget' & Hfar & _).
    rewrite Hget in Hget'. injection Hget' as <-.
    rewrite Hnext, Hadd in Hfar. lia.
  - intros Hleft.
    assert (Hfar : Int64.add renewBefore renewJitter < (next (NotAfter (Leaf tc)) s).1)
      by (rewrite Hnext, Hadd; lia).
    destruct (do_cached_adopt s tc signer Hget Hfar Hsig) as (-> & _).
    rewrite Hnext. f_equal. lia.
Qed.

End AdoptionThreshold.

(** ** The further properties at concrete inputs *)

Section FurtherAtIssuerUp.
#[local] Existing Instance Demo.envOk.
Import Demo.

Lemma demo_cache_returns_put (c : gmap certKey tlsCertificate) k tc c' :
  memPut true c k tc = (c', None) -> memGet c' k = Ok tc.
Proof.
  unfold memPut, memGet. intros [= <-]. by rewrite lookup_insert_eq.
Qed.

Lemma demo_derive_keeps_fields st tc :
  derive st = Ok tc ->
  PrivateKey_of tc = SignerKey (key st) /\ Certificate tc = cert st /\ Leaf tc = leaf st.
Proof.
  unfold derive. destruct (cert st) eqn:Hc; [discriminate |]. by intros [= <-].
Qed.

Lemma stopped_callback_aborts_witness :
  let s := (start (t2026 + 45 * day) (init ∅ 11 None)).2 in
  dr_timer s = Some 0%nat /\
  armed s !! 0%nat = Some (15 * day - 5) /\
  exists s',
    run [OpFire 0%nat; OpStop; OpRenew] s = Some s' /\
    dr_timer s' = None /\
    armed s' = delete 0%nat (armed s) /\
    timers_made s' = timers_made s /\
    fired s' = fired s /\
    m_state s' = m_state s /\ m_cache s' = m_cache s /\ dr_key s' = dr_key s /\
    issuer_calls s' = issuer_calls s /\
    trace s' = trace s ++ [EvLock timerMu; EvTimerStop 0%nat; EvUnlock timerMu;
                           EvLock timerMu; EvUnlock timerMu].
Proof.
  intros s.
  assert (H1 : dr_timer s = Some 0%nat) by (vm_compute; reflexivity).
  assert (H2 : armed s !! 0%nat = Some (15 * day - 5)) by (vm_compute; reflexivity).
  exact (conj H1 (conj H2 (stopped_callback_aborts s 0%nat _ H1 H2))).
Defined.

Lemma repeated_start_arms_once_witness :
  let s := init ∅ 11 None in
  let exp := t2026 + 45 * day in
  dr_timer s = None /\
  exists s',
    run (map OpStart (exp :: [exp; exp])) s = Some s' /\
    dr_timer s' = Some (timers_made s) /\
    armed s' = <[timers_made s := (next exp s).1]> (armed s) /\
    timers_made s' = S (timers_made s) /\
    clock_reads s' = S (clock_reads s) /\
    rand_draws s' = S (rand_draws s) /\
    length (List.filter is_timer_made (drop (length (trace s)) (trace s'))) = 1%nat.
Proof.
  intros s exp.
  exact (conj eq_refl (repeated_start_arms_once s exp [exp; exp] eq_refl)).
Defined.

Lemma one_timer_invariant_witness :
  let s := init ∅ 11 None in
  let exp := t2026 + 45 * day in
  let cs := [CallStart exp; CallTurn; CallStop; CallStart exp; CallTurn] in
  let s' := default s (calls cs s) in
  one_timer s /\
  calls cs s = Some s' /\
  one_timer s' /\ (size (armed s') <= 1)%nat.
Proof.
  intros s exp cs s'.
  assert (H1 : one_timer s) by (split; reflexivity).
  assert (Hb : match calls cs s with Some _ => true | None => false end = true) by (vm_compute; reflexivity).
  assert (H2 : calls cs s = Some s').
  { subst s'. destruct (calls cs s); [reflexivity | discriminate]. }
  exact (conj H1 (conj H2 (one_timer_invariant cs s s' H1 H2))).
Defined.

Lemma do_success_consistent_witness :
  let s := init ∅ 11 None in
  (do s).1 = Ok (60 * day - 5) /\
  0 <= 60 * day - 5.
Proof.
  intros s.
  assert (H1 : (do s).1 = Ok (60 * day - 5)) by (vm_compute; reflexivity).
  exact (conj H1 (proj1 (do_success_consistent s _ H1))).
Defined.

Lemma reschedule_nonnegative_witness :
  let s := init ∅ 11 None in
  let exp := t2026 + 45 * day in
  EvAfterFunc (15 * day - 5) 0%nat ∈ events_of (start exp) s /\
  0 <= 15 * day - 5 /\ Int64.in_range (15 * day - 5).
Proof.
  intros s exp.
  assert (Hev : events_of (start exp) s =
                [EvLock timerMu; EvAfterFunc (15 * day - 5) 0%nat; EvUnlock timerMu])
    by (vm_compute; reflexivity).
  assert (H1 : EvAfterFunc (15 * day - 5) 0%nat ∈ events_of (start exp) s).
  { rewrite Hev. apply list_elem_of_further, list_elem_of_here. }
  exact (conj H1 (reschedule_nonnegative s exp _ _ (or_introl H1))).
Defined.

Lemma next_window_witness :
  let s := init ∅ 11 None in
  let E := t2026 + 45 * day in
  Int64.in_range (E - t2026) /\
  Int64.in_range (E - t2026 - 30 * day) /\
  Int64.in_range (E - t2026 - 30 * day - renewJitter) /\
  (30 * day + renewJitter <= E - t2026 ->
   E - 30 * day - renewJitter < t2026 + (next E s).1 <= E - 30 * day).
Proof.
  intros s E.
  assert (H1 : Int64.in_range (E - t2026)) by (vm_compute; split; discriminate).
  assert (H2 : Int64.in_range (E - t2026 - 30 * day)) by (vm_compute; split; discriminate).
  assert (H3 : Int64.in_range (E - t2026 - 30 * day - renewJitter))
    by (vm_compute; split; discriminate).
  exact (conj H1 (conj H2 (conj H3 (proj2 (next_window E s H1 H2 H3))))).
Defined.

Lemma peer_handoff_witness :
  let sA := init ∅ 11 None in
  let sB := init (m_cache (do sA).2) 22 None in
  (do_cached sA).1 = None /\
  (do sA).1 = Ok (60 * day - 5) /\
  issuer_calls (do sB).2 = issuer_calls sB /\
  dr_key (do sB).2 = dr_key (do sA).2.
Proof.
  intros sA sB.
  assert (H1 : (do_cached sA).1 = None) by (vm_compute; reflexivity).
  assert (H2 : (do sA).1 = Ok (60 * day - 5)) by (vm_compute; reflexivity).
  assert (H3 : forall st, m_state (do sA).2 !! dr_ck sA = Some st ->
                 Int64.add renewBefore renewJitter < (next (NotAfter (leaf st)) sB).1).
  { intros st Hst.
    assert (Hm : m_state (do sA).2 !! dr_ck sA =
                 Some {| key := 11; cert := [[0]];
                         leaf := {| NotAfter := t2026 + 90 * day; Raw := [0] |} |})
      by (vm_compute; reflexivity).
    rewrite Hm in Hst. injection Hst as <-. vm_compute. reflexivity. }
  destruct (peer_handoff sA sB _ demo_cache_returns_put demo_derive_keeps_fields
              H1 H2 eq_refl eq_refl H3) as (Hi & _ & _ & Hk & _).
  exact (conj H1 (conj H2 (conj Hi Hk))).
Defined.

Lemma turns_count_witness :
  let s := (start (t2026 + 45 * day) (init ∅ 11 None)).2 in
  let s' := default s (turns 2 s) in
  turns 2 s = Some s' /\
  timers_made s' = (timers_made s + 2)%nat /\
  (issuer_calls s' <= issuer_calls s + 2)%nat /\
  length (List.filter is_report (drop (length (trace s)) (trace s'))) = 2%nat.
Proof.
  intros s s'.
  assert (Hb : match turns 2 s with Some _ => true | None => false end = true) by (vm_compute; reflexivity).
  assert (H1 : turns 2 s = Some s').
  { subst s'. destruct (turns 2 s); [reflexivity | discriminate]. }
  exact (conj H1 (turns_count 2 s s' H1)).
Defined.

Lemma adoption_needs_twice_lead_witness :
  let tc := {| Certificate := [[7]]; PrivateKey_of := SignerKey 3;
               Leaf := {| NotAfter := t2026 + 80 * day; Raw := [7] |} |} in
  let s := init (cached (SignerKey 3) (t2026 + 80 * day)) 11 None in
  cacheGet (m_cache s) (dr_ck s) = Ok tc /\
  asSigner (PrivateKey_of tc) = Some 3 /\
  0 <= 30 * day /\
  Int64.in_range (30 * day + renewJitter) /\
  Int64.in_range (t2026 + 80 * day - t2026) /\
  Int64.in_range (t2026 + 80 * day - t2026 - 30 * day - renewJitter) /\
  ((do_cached s).1 <> None -> 2 * (30 * day) + renewJitter < t2026 + 80 * day - t2026).
Proof.
  intros tc s.
  assert (H1 : cacheGet (m_cache s) (dr_ck s) = Ok tc) by (vm_compute; reflexivity).
  assert (H2 : asSigner (PrivateKey_of tc) = Some 3) by reflexivity.
  assert (H3 : 0 <= 30 * day) by (vm_compute; discriminate).
  assert (H4 : Int64.in_range (30 * day + renewJitter)) by (vm_compute; split; discriminate).
  assert (H5 : Int64.in_range (t2026 + 80 * day - t2026)) by (vm_compute; split; discriminate).
  assert (H6 : Int64.in_range (t2026 + 80 * day - t2026 - 30 * day - renewJitter))
    by (vm_compute; split; discriminate).
  exact (conj H1 (conj H2 (conj H3 (conj H4 (conj H5 (conj H6
           (proj1 (adoption_needs_twice_lead s tc 3 H1 H2 H3 H4 H5 H6)))))))).
Defined.

End FurtherAtIssuerUp.
